(** * Cascaded shadow maps of the clouds shadow pass: a model in the reals

    Shallow embedding of [CascadedShadows] (src/unnamed/part_000, lines
    81-292) and of the define setters of [CloudsShadowMaterial]
    ([depthPacking], [cascadeCount], [useShapeDetail], lines 507-542).  JavaScript numbers are modelled as real numbers.
    The three.js primitives the class calls ([Vector3], [Matrix4], [Box3])
    are written out as three.js r169 implements them; the helpers of this
    repository that live outside src/ ([splitFrustum], [FrustumCorners],
    [lerp], [Ellipsoid.getSurfaceNormal]) are modelled from the spec and
    marked so. *)

From Stdlib Require Import Reals Lra Lia List ZArith.
Import ListNotations.
Open Scope R_scope.

(** ** three.js vectors *)

Record Vector2 := mkV2 { v2x : R; v2y : R }.

Record Vector3 := mkV3 { vx : R; vy : R; vz : R }.

Definition v3_zero : Vector3 := mkV3 0 0 0.

Definition v3_add (a b : Vector3) : Vector3 :=
  mkV3 (vx a + vx b) (vy a + vy b) (vz a + vz b).

Definition v3_sub (a b : Vector3) : Vector3 :=
  mkV3 (vx a - vx b) (vy a - vy b) (vz a - vz b).

Definition v3_multiplyScalar (a : Vector3) (s : R) : Vector3 :=
  mkV3 (vx a * s) (vy a * s) (vz a * s).

Definition v3_dot (a b : Vector3) : R :=
  vx a * vx b + vy a * vy b + vz a * vz b.

Definition v3_cross (a b : Vector3) : Vector3 :=
  mkV3 (vy a * vz b - vz a * vy b)
       (vz a * vx b - vx a * vz b)
       (vx a * vy b - vy a * vx b).

Definition v3_lengthSq (a : Vector3) : R := v3_dot a a.

Definition v3_length (a : Vector3) : R := sqrt (v3_lengthSq a).

(** [normalize() { return this.divideScalar(this.length() || 1) }] *)
Definition v3_normalize (a : Vector3) : Vector3 :=
  let l := v3_length a in
  let d := if Req_EM_T l 0 then 1 else l in
  v3_multiplyScalar a (1 / d).

Definition v3_distanceTo (a b : Vector3) : R :=
  sqrt ((vx a - vx b) * (vx a - vx b) + (vy a - vy b) * (vy a - vy b)
        + (vz a - vz b) * (vz a - vz b)).

(** [Object3D.DEFAULT_UP] *)
Definition DEFAULT_UP : Vector3 := mkV3 0 1 0.

(** ** three.js [Matrix4]: the sixteen entries of [elements], column major *)

Record Matrix4 := mkM4 {
  te0 : R; te1 : R; te2 : R; te3 : R;
  te4 : R; te5 : R; te6 : R; te7 : R;
  te8 : R; te9 : R; te10 : R; te11 : R;
  te12 : R; te13 : R; te14 : R; te15 : R }.

(** [new Matrix4()] is the identity. *)
Definition m4_identity : Matrix4 :=
  mkM4 1 0 0 0  0 1 0 0  0 0 1 0  0 0 0 1.

Definition m4_zero : Matrix4 :=
  mkM4 0 0 0 0  0 0 0 0  0 0 0 0  0 0 0 0.

(** [makeOrthographic(left, right, top, bottom, near, far)] with the WebGL
    coordinate system; it writes all sixteen entries. *)
Definition makeOrthographic (left right top bottom near far : R) : Matrix4 :=
  let w := 1 / (right - left) in
  let h := 1 / (top - bottom) in
  let p := 1 / (far - near) in
  let x := (right + left) * w in
  let y := (top + bottom) * h in
  let z := (far + near) * p in
  let zInv := - 2 * p in
  mkM4 (2 * w) 0 0 0
       0 (2 * h) 0 0
       0 0 zInv 0
       (- x) (- y) (- z) 1.

(** [m.lookAt(eye, target, up)]: writes the rotation part only; the other
    seven entries of [m] are kept. *)
Definition lookAt (m : Matrix4) (eye target up : Vector3) : Matrix4 :=
  let z0 := v3_sub eye target in
  let z1 := if Req_EM_T (v3_lengthSq z0) 0 then mkV3 (vx z0) (vy z0) 1 else z0 in
  let z2 := v3_normalize z1 in
  let x0 := v3_cross up z2 in
  let '(z3, x1) :=
    if Req_EM_T (v3_lengthSq x0) 0 then
      let z4 := if Req_EM_T (Rabs (vz up)) 1
                then mkV3 (vx z2 + 0.0001) (vy z2) (vz z2)
                else mkV3 (vx z2) (vy z2) (vz z2 + 0.0001) in
      let z5 := v3_normalize z4 in
      (z5, v3_cross up z5)
    else (z2, x0) in
  let x2 := v3_normalize x1 in
  let y := v3_cross z3 x2 in
  mkM4 (vx x2) (vy x2) (vz x2) (te3 m)
       (vx y) (vy y) (vz y) (te7 m)
       (vx z3) (vy z3) (vz z3) (te11 m)
       (te12 m) (te13 m) (te14 m) (te15 m).

(** [m.setPosition(v)] *)
Definition setPosition (m : Matrix4) (v : Vector3) : Matrix4 :=
  mkM4 (te0 m) (te1 m) (te2 m) (te3 m)
       (te4 m) (te5 m) (te6 m) (te7 m)
       (te8 m) (te9 m) (te10 m) (te11 m)
       (vx v) (vy v) (vz v) (te15 m).

(** [multiplyMatrices(a, b)] is [a * b]; [a.multiply(b)] is the same. *)
Definition multiplyMatrices (ma mb : Matrix4) : Matrix4 :=
  let a11 := te0 ma in
  let a21 := te1 ma in
  let a31 := te2 ma in
  let a41 := te3 ma in
  let a12 := te4 ma in
  let a22 := te5 ma in
  let a32 := te6 ma in
  let a42 := te7 ma in
  let a13 := te8 ma in
  let a23 := te9 ma in
  let a33 := te10 ma in
  let a43 := te11 ma in
  let a14 := te12 ma in
  let a24 := te13 ma in
  let a34 := te14 ma in
  let a44 := te15 ma in
  let b11 := te0 mb in
  let b21 := te1 mb in
  let b31 := te2 mb in
  let b41 := te3 mb in
  let b12 := te4 mb in
  let b22 := te5 mb in
  let b32 := te6 mb in
  let b42 := te7 mb in
  let b13 := te8 mb in
  let b23 := te9 mb in
  let b33 := te10 mb in
  let b43 := te11 mb in
  let b14 := te12 mb in
  let b24 := te13 mb in
  let b34 := te14 mb in
  let b44 := te15 mb in
  mkM4
      (a11 * b11 + a12 * b21 + a13 * b31 + a14 * b41)
      (a21 * b11 + a22 * b21 + a23 * b31 + a24 * b41)
      (a31 * b11 + a32 * b21 + a33 * b31 + a34 * b41)
      (a41 * b11 + a42 * b21 + a43 * b31 + a44 * b41)
      (a11 * b12 + a12 * b22 + a13 * b32 + a14 * b42)
      (a21 * b12 + a22 * b22 + a23 * b32 + a24 * b42)
      (a31 * b12 + a32 * b22 + a33 * b32 + a34 * b42)
      (a41 * b12 + a42 * b22 + a43 * b32 + a44 * b42)
      (a11 * b13 + a12 * b23 + a13 * b33 + a14 * b43)
      (a21 * b13 + a22 * b23 + a23 * b33 + a24 * b43)
      (a31 * b13 + a32 * b23 + a33 * b33 + a34 * b43)
      (a41 * b13 + a42 * b23 + a43 * b33 + a44 * b43)
      (a11 * b14 + a12 * b24 + a13 * b34 + a14 * b44)
      (a21 * b14 + a22 * b24 + a23 * b34 + a24 * b44)
      (a31 * b14 + a32 * b24 + a33 * b34 + a34 * b44)
      (a41 * b14 + a42 * b24 + a43 * b34 + a44 * b44).

(** [invert()]: the adjugate over the determinant, and the zero matrix when
    the determinant is zero. *)
Definition invert (m : Matrix4) : Matrix4 :=
  let n11 := te0 m in
  let n21 := te1 m in
  let n31 := te2 m in
  let n41 := te3 m in
  let n12 := te4 m in
  let n22 := te5 m in
  let n32 := te6 m in
  let n42 := te7 m in
  let n13 := te8 m in
  let n23 := te9 m in
  let n33 := te10 m in
  let n43 := te11 m in
  let n14 := te12 m in
  let n24 := te13 m in
  let n34 := te14 m in
  let n44 := te15 m in
  let det := n11 * (n22 * n33 * n44 - n22 * n34 * n43 - n23 * n32 * n44
                    + n23 * n34 * n42 + n24 * n32 * n43 - n24 * n33 * n42)
           - n21 * (n12 * n33 * n44 - n12 * n34 * n43 - n13 * n32 * n44
                    + n13 * n34 * n42 + n14 * n32 * n43 - n14 * n33 * n42)
           + n31 * (n12 * n23 * n44 - n12 * n24 * n43 - n13 * n22 * n44
                    + n13 * n24 * n42 + n14 * n22 * n43 - n14 * n23 * n42)
           - n41 * (n12 * n23 * n34 - n12 * n24 * n33 - n13 * n22 * n34
                    + n13 * n24 * n32 + n14 * n22 * n33 - n14 * n23 * n32) in
  if Req_EM_T det 0 then m4_zero else
  let detInv := 1 / det in
  mkM4
      ((n22 * n33 * n44 - n22 * n34 * n43 - n23 * n32 * n44 + n23 * n34 * n42 + n24 * n32 * n43 - n24 * n33 * n42) * detInv)
      (- (n21 * n33 * n44 - n21 * n34 * n43 - n23 * n31 * n44 + n23 * n34 * n41 + n24 * n31 * n43 - n24 * n33 * n41) * detInv)
      ((n21 * n32 * n44 - n21 * n34 * n42 - n22 * n31 * n44 + n22 * n34 * n41 + n24 * n31 * n42 - n24 * n32 * n41) * detInv)
      (- (n21 * n32 * n43 - n21 * n33 * n42 - n22 * n31 * n43 + n22 * n33 * n41 + n23 * n31 * n42 - n23 * n32 * n41) * detInv)
      (- (n12 * n33 * n44 - n12 * n34 * n43 - n13 * n32 * n44 + n13 * n34 * n42 + n14 * n32 * n43 - n14 * n33 * n42) * detInv)
      ((n11 * n33 * n44 - n11 * n34 * n43 - n13 * n31 * n44 + n13 * n34 * n41 + n14 * n31 * n43 - n14 * n33 * n41) * detInv)
      (- (n11 * n32 * n44 - n11 * n34 * n42 - n12 * n31 * n44 + n12 * n34 * n41 + n14 * n31 * n42 - n14 * n32 * n41) * detInv)
      ((n11 * n32 * n43 - n11 * n33 * n42 - n12 * n31 * n43 + n12 * n33 * n41 + n13 * n31 * n42 - n13 * n32 * n41) * detInv)
      ((n12 * n23 * n44 - n12 * n24 * n43 - n13 * n22 * n44 + n13 * n24 * n42 + n14 * n22 * n43 - n14 * n23 * n42) * detInv)
      (- (n11 * n23 * n44 - n11 * n24 * n43 - n13 * n21 * n44 + n13 * n24 * n41 + n14 * n21 * n43 - n14 * n23 * n41) * detInv)
      ((n11 * n22 * n44 - n11 * n24 * n42 - n12 * n21 * n44 + n12 * n24 * n41 + n14 * n21 * n42 - n14 * n22 * n41) * detInv)
      (- (n11 * n22 * n43 - n11 * n23 * n42 - n12 * n21 * n43 + n12 * n23 * n41 + n13 * n21 * n42 - n13 * n22 * n41) * detInv)
      (- (n12 * n23 * n34 - n12 * n24 * n33 - n13 * n22 * n34 + n13 * n24 * n32 + n14 * n22 * n33 - n14 * n23 * n32) * detInv)
      ((n11 * n23 * n34 - n11 * n24 * n33 - n13 * n21 * n34 + n13 * n24 * n31 + n14 * n21 * n33 - n14 * n23 * n31) * detInv)
      (- (n11 * n22 * n34 - n11 * n24 * n32 - n12 * n21 * n34 + n12 * n24 * n31 + n14 * n21 * n32 - n14 * n22 * n31) * detInv)
      ((n11 * n22 * n33 - n11 * n23 * n32 - n12 * n21 * n33 + n12 * n23 * n31 + n13 * n21 * n32 - n13 * n22 * n31) * detInv).

(** [v.applyMatrix4(m)], with the perspective divide. *)
Definition applyMatrix4 (v : Vector3) (e : Matrix4) : Vector3 :=
  let x := vx v in let y := vy v in let z := vz v in
  let w := 1 / (te3 e * x + te7 e * y + te11 e * z + te15 e) in
  mkV3 ((te0 e * x + te4 e * y + te8 e * z + te12 e) * w)
       ((te1 e * x + te5 e * y + te9 e * z + te13 e) * w)
       ((te2 e * x + te6 e * y + te10 e * z + te14 e) * w).

(** [Math.round]: the nearest integer, halves rounded up, i.e. [floor(x + 0.5)]. *)
Definition js_round (x : R) : R := IZR (Int_part (x + 1 / 2)).

(** ** three.js [Box3]: [None] is the empty box of [makeEmpty()] *)

Definition Box3 := option (Vector3 * Vector3).

Definition v3_min (a b : Vector3) : Vector3 :=
  mkV3 (Rmin (vx a) (vx b)) (Rmin (vy a) (vy b)) (Rmin (vz a) (vz b)).

Definition v3_max (a b : Vector3) : Vector3 :=
  mkV3 (Rmax (vx a) (vx b)) (Rmax (vy a) (vy b)) (Rmax (vz a) (vz b)).

(** [expandByPoint(p)]: [min.min(p)], [max.max(p)]; on the empty box
    ([min = +Infinity], [max = -Infinity]) this gives [(p, p)]. *)
Definition expandByPoint (b : Box3) (p : Vector3) : Box3 :=
  match b with
  | None => Some (p, p)
  | Some (mn, mx) => Some (v3_min mn p, v3_max mx p)
  end.

(** [getCenter()]: the origin for an empty box, else [(min + max) * 0.5]. *)
Definition getCenter (b : Box3) : Vector3 :=
  match b with
  | None => v3_zero
  | Some (mn, mx) => v3_multiplyScalar (v3_add mn mx) (1 / 2)
  end.

Definition box_max (b : Box3) : Vector3 :=
  match b with
  | None => v3_zero
  | Some (_, mx) => mx
  end.

(** [extractOrthographicTuple] (lines 51-69). *)
Definition extractOrthographicTuple (matrix : Matrix4) : R * R * R * R :=
  let m00 := te0 matrix in
  let m03 := te12 matrix in
  let m11 := te5 matrix in
  let m13 := te13 matrix in
  let RmL := 2 / m00 in
  let RpL := RmL * - m03 in
  let TmB := 2 / m11 in
  let TpB := TmB * - m13 in
  ((RpL - RmL) / 2, (RmL + RpL) / 2, (TmB + TpB) / 2, (TpB - TmB) / 2).

(** ** Helpers of the repository outside src/ *)

(** Modelled from the spec: [lerp] of [@takram/three-geospatial], the linear
    interpolation [x + (y - x) * a], used for the light distance
    [lerp(1e6, 1e3, zenithFactor)]. *)
Definition lerp (x y a : R) : R := x + (y - x) * a.

(** Modelled from the spec: [Ellipsoid] of [@takram/three-geospatial] and
    its [getSurfaceNormal], the "surface normal at the camera": the
    normalized gradient [(x / a^2, y / b^2, z / c^2)] of the ellipsoid
    with radii [(a, b, c)]. *)
Record Ellipsoid := mkEllipsoid { radii : Vector3 }.

Definition getSurfaceNormal (ell : Ellipsoid) (p : Vector3) : Vector3 :=
  let r := radii ell in
  v3_normalize (mkV3 (vx p / (vx r * vx r)) (vy p / (vy r * vy r))
                     (vz p / (vz r * vz r))).

Definition WGS84 : Ellipsoid :=
  mkEllipsoid (mkV3 6378137 6378137 6356752.3142451793).

(** Modelled from the spec: [splitFrustum] of ./helpers/splitFrustum.
    "split(mode, count, near, far, lambda) -> ordered sequence of count
    split distances"; [uniform]: [near + (far - near) * i / count],
    [logarithmic]: [near * (far / near) ^ (i / count)], [practical]:
    [lambda * logarithmic_i + (1 - lambda) * uniform_i]; "count = 1 yields
    a single split at far; no split at near is emitted", so [i] runs over
    [1 .. count]. *)
Inductive FrustumSplitMode := uniform | logarithmic | practical.

Definition uniformSplit (count : nat) (near far : R) (i : nat) : R :=
  near + (far - near) * INR i / INR count.

Definition logarithmicSplit (count : nat) (near far : R) (i : nat) : R :=
  near * Rpower (far / near) (INR i / INR count).

Definition splitAt (mode : FrustumSplitMode) (count : nat) (near far lambda : R)
    (i : nat) : R :=
  match mode with
  | uniform => uniformSplit count near far i
  | logarithmic => logarithmicSplit count near far i
  | practical =>
      lambda * logarithmicSplit count near far i
      + (1 - lambda) * uniformSplit count near far i
  end.

Definition splitFrustum (mode : FrustumSplitMode) (count : nat)
    (near far lambda : R) : list R :=
  map (splitAt mode count near far lambda) (seq 1 count).

(** ** The camera, as far as [CascadedShadows] reads it *)

Record PerspectiveCamera := mkCamera {
  cam_near : R;
  cam_far : R;
  matrixWorld : Matrix4;
  projectionMatrixInverse : Matrix4 }.

(** [camera.getWorldPosition(v)]: the translation of [matrixWorld].
    three.js first refreshes [matrixWorld] from the camera's position,
    rotation, scale and parents ([updateWorldMatrix(true, false)]); the
    record holds the world matrix that refresh gives, so the model is of a
    camera whose [matrixWorld] is already up to date when [update] is
    called (as after a render), and a stale one is not represented. *)
Definition getWorldPosition (camera : PerspectiveCamera) : Vector3 :=
  let m := matrixWorld camera in mkV3 (te12 m) (te13 m) (te14 m).

(** Modelled from the spec: [FrustumCorners] of ./helpers/FrustumCorners,
    "8 points split into near[4] and far[4] ... indices 0 and 2 are
    diagonal opposites". *)
Record FrustumCorners := mkFrustum { fnear : list Vector3; ffar : list Vector3 }.

Definition ndcCorners (z : R) : list Vector3 :=
  [mkV3 1 1 z; mkV3 1 (-1) z; mkV3 (-1) (-1) z; mkV3 (-1) 1 z].

(** Modelled from the spec: [setFromCamera(camera, overrideFar)] "computes
    8 corners from the camera's projection, using overrideFar in place of
    the camera's own far clip": the normalized-device corners are
    unprojected with [projectionMatrixInverse] and the far ones are scaled
    to the depth [overrideFar]. *)
Definition setFromCamera (camera : PerspectiveCamera) (far : R) : FrustumCorners :=
  let inv := projectionMatrixInverse camera in
  mkFrustum
    (map (fun v => applyMatrix4 v inv) (ndcCorners (-1)))
    (map (fun v => let u := applyMatrix4 v inv in
                   v3_multiplyScalar u (far / Rabs (vz u)))
         (ndcCorners 1)).

Definition lerpVectors (a b : Vector3) (t : R) : Vector3 :=
  v3_add a (v3_multiplyScalar (v3_sub b a) t).

(** Modelled from the spec: [FrustumCorners.split(splits, output)] gives K
    sub-frusta for K split distances, "linearly interpolating between the
    original near and far corner sets at each split boundary", with the
    parameter [(splitDepth - near) / (far - near)]; the first sub-frustum
    starts at the near corners (parameter 0).  The depths of [near] and
    [far] are read off corner 0. *)
Definition splitParam (frustum : FrustumCorners) (s : R) : R :=
  let dn := - vz (nth 0 (fnear frustum) v3_zero) in
  let df := - vz (nth 0 (ffar frustum) v3_zero) in
  (s - dn) / (df - dn).

Definition subFrustum (frustum : FrustumCorners) (t0 t1 : R) : FrustumCorners :=
  mkFrustum
    (map (fun '(n, f) => lerpVectors n f t0) (combine (fnear frustum) (ffar frustum)))
    (map (fun '(n, f) => lerpVectors n f t1) (combine (fnear frustum) (ffar frustum))).

Fixpoint splitFrom (frustum : FrustumCorners) (t0 : R) (splits : list R)
    : list FrustumCorners :=
  match splits with
  | [] => []
  | s :: rest =>
      let t1 := splitParam frustum s in
      subFrustum frustum t0 t1 :: splitFrom frustum t1 rest
  end.

Definition splitCorners (frustum : FrustumCorners) (splits : list R)
    : list FrustumCorners :=
  splitFrom frustum 0 splits.

(** [frustum.applyMatrix4(m)]: all eight corners. *)
Definition frustum_applyMatrix4 (frustum : FrustumCorners) (m : Matrix4)
    : FrustumCorners :=
  mkFrustum (map (fun v => applyMatrix4 v m) (fnear frustum))
            (map (fun v => applyMatrix4 v m) (ffar frustum)).

(** ** [Cascade] and the state of [CascadedShadows] *)

Record Cascade := mkCascade {
  interval : Vector2;
  matrix : Matrix4;
  inverseMatrix : Matrix4;
  projectionMatrix : Matrix4;
  inverseProjectionMatrix : Matrix4;
  viewMatrix : Matrix4;
  inverseViewMatrix : Matrix4 }.

(** The entry created by the [cascadeCount] setter (lines 135-143):
    [new Vector2()] and six [new Matrix4()]. *)
Definition newCascade : Cascade :=
  mkCascade (mkV2 0 0) m4_identity m4_identity m4_identity m4_identity
            m4_identity m4_identity.

Definition set_interval (c : Cascade) (v : Vector2) : Cascade :=
  mkCascade v (matrix c) (inverseMatrix c) (projectionMatrix c)
            (inverseProjectionMatrix c) (viewMatrix c) (inverseViewMatrix c).

Definition set_projectionMatrix (c : Cascade) (m : Matrix4) : Cascade :=
  mkCascade (interval c) (matrix c) (inverseMatrix c) m
            (inverseProjectionMatrix c) (viewMatrix c) (inverseViewMatrix c).

Definition set_inverseViewMatrix (c : Cascade) (m : Matrix4) : Cascade :=
  mkCascade (interval c) (matrix c) (inverseMatrix c) (projectionMatrix c)
            (inverseProjectionMatrix c) (viewMatrix c) m.

(** The fields of the class; [cs_far] is the field [far]. *)
Record CascadedShadows := mkCS {
  cascades : list Cascade;
  cascadeSize : R;
  cs_far : R;
  mode : FrustumSplitMode;
  lambda : R;
  margin : R;
  fade : bool;
  frusta : list FrustumCorners;
  splits : list R }.

Definition with_cascades (st : CascadedShadows) (cs : list Cascade) : CascadedShadows :=
  mkCS cs (cascadeSize st) (cs_far st) (mode st) (lambda st) (margin st)
       (fade st) (frusta st) (splits st).

(** [get cascadeCount()] *)
Definition cascadeCount (st : CascadedShadows) : nat := length (cascades st).

(** [this.cascades[i] ??= v]; the loop visits [i] in increasing order, so
    an absent index is the current length and the assignment appends. *)
Definition nullishAssign {A} (l : list A) (i : nat) (v : A) : list A :=
  match nth_error l i with
  | Some _ => l
  | None => l ++ [v]
  end.

Fixpoint fillCascades (l : list Cascade) (i k : nat) : list Cascade :=
  match k with
  | O => l
  | S k' => fillCascades (nullishAssign l i newCascade) (S i) k'
  end.

(** [set cascadeCount(value)] (lines 132-147); [length = value] truncates
    (after the loop the array is at least [value] long). *)
Definition set_cascadeCount (st : CascadedShadows) (value : nat) : CascadedShadows :=
  if Nat.eqb value (cascadeCount st) then st
  else with_cascades st (firstn value (fillCascades (cascades st) 0 value)).

(** The other configuration properties are plain fields: assignments. *)
Definition set_cascadeSize (st : CascadedShadows) (v : R) : CascadedShadows :=
  mkCS (cascades st) v (cs_far st) (mode st) (lambda st) (margin st)
       (fade st) (frusta st) (splits st).

Definition set_far (st : CascadedShadows) (v : R) : CascadedShadows :=
  mkCS (cascades st) (cascadeSize st) v (mode st) (lambda st) (margin st)
       (fade st) (frusta st) (splits st).

Definition set_mode (st : CascadedShadows) (v : FrustumSplitMode) : CascadedShadows :=
  mkCS (cascades st) (cascadeSize st) (cs_far st) v (lambda st) (margin st)
       (fade st) (frusta st) (splits st).

Definition set_lambda (st : CascadedShadows) (v : R) : CascadedShadows :=
  mkCS (cascades st) (cascadeSize st) (cs_far st) (mode st) v (margin st)
       (fade st) (frusta st) (splits st).

Definition set_margin (st : CascadedShadows) (v : R) : CascadedShadows :=
  mkCS (cascades st) (cascadeSize st) (cs_far st) (mode st) (lambda st) v
       (fade st) (frusta st) (splits st).

Definition set_fade (st : CascadedShadows) (v : bool) : CascadedShadows :=
  mkCS (cascades st) (cascadeSize st) (cs_far st) (mode st) (lambda st)
       (margin st) v (frusta st) (splits st).

(** A method either returns or throws ([invariant] of tiny-invariant); a
    throw carries the state of the object at that point. *)
Inductive Result :=
| Returned (st : CascadedShadows)
| Threw (st : CascadedShadows).

Fixpoint imapFrom {A B} (f : nat -> A -> B) (i : nat) (l : list A) : list B :=
  match l with
  | [] => []
  | x :: r => f i x :: imapFrom f (S i) r
  end.

Definition imap {A B} (f : nat -> A -> B) (l : list A) : list B := imapFrom f 0 l.

(** [splits[i - 1] ?? 0] and [splits[i] ?? 0]. *)
Definition prevSplit (splits : list R) (i : nat) : R :=
  match i with
  | O => 0
  | S k => match nth_error splits k with Some s => s | None => 0 end
  end.

Definition curSplit (splits : list R) (i : nat) : R :=
  match nth_error splits i with Some s => s | None => 0 end.

(** [updateIntervals(camera)] (lines 149-161). *)
Definition updateIntervals (st : CascadedShadows) (camera : PerspectiveCamera)
    : CascadedShadows :=
  let count := cascadeCount st in
  let far := Rmin (cs_far st) (cam_far camera) in
  let splits := splitFrustum (mode st) count (cam_near camera) far (lambda st) in
  let frusta := splitCorners (setFromCamera camera far) splits in
  let cascades :=
    imap (fun i c => set_interval c (mkV2 (prevSplit splits i) (curSplit splits i)))
         (cascades st) in
  mkCS cascades (cascadeSize st) (cs_far st) (mode st) (lambda st) (margin st)
       (fade st) frusta splits.

(** [getFrustumRadius(camera, frustum)] (lines 163-185), over the reals:
    at [far = near] with fade on the code divides by zero and returns
    [NaN], which this definition does not represent; the bounds proved about
    it assume [near < far]. *)
Definition getFrustumRadius (st : CascadedShadows) (camera : PerspectiveCamera)
    (frustum : FrustumCorners) : R :=
  let nearCorners := fnear frustum in
  let farCorners := ffar frustum in
  let f0 := nth 0 farCorners v3_zero in
  let diagonalLength :=
    Rmax (v3_distanceTo f0 (nth 2 farCorners v3_zero))
         (v3_distanceTo f0 (nth 2 nearCorners v3_zero)) in
  let diagonalLength :=
    if fade st then
      let near := cam_near camera in
      let far := Rmin (cs_far st) (cam_far camera) in
      let distance := vz f0 / (far - near) in
      diagonalLength + 0.25 * distance ^ 2 * (far - near)
    else diagonalLength in
  diagonalLength * 0.5.

(** The projection written for one cascade (lines 193-201). *)
Definition cascadeProjection (st : CascadedShadows) (camera : PerspectiveCamera)
    (frustum : FrustumCorners) : Matrix4 :=
  let radius := getFrustumRadius st camera frustum in
  makeOrthographic (- radius) radius radius (- radius) (- margin st)
                   (radius * 2 + margin st).

(** [updateProjectionMatrix(camera)] (lines 187-203). *)
Definition updateProjectionMatrix (st : CascadedShadows) (camera : PerspectiveCamera)
    : Result :=
  if Nat.eqb (length (frusta st)) (length (cascades st)) then
    Returned (with_cascades st
      (map (fun '(frustum, c) => set_projectionMatrix c (cascadeProjection st camera frustum))
           (combine (frusta st) (cascades st))))
  else Threw st.

(** [matrixScratch1.lookAt(0, -sunDirection, DEFAULT_UP)] (lines 210-214).
    The scratch matrix is written by this call only, so the seven entries
    [lookAt] keeps are those of the identity it was created as. *)
Definition lightOrientationMatrix (sunDirection : Vector3) : Matrix4 :=
  lookAt m4_identity v3_zero (v3_multiplyScalar sunDirection (-1)) DEFAULT_UP.

(** Lines 215-218: [inverse(lightOrientation) * camera.matrixWorld]. *)
Definition cameraToLightMatrix (camera : PerspectiveCamera) (sunDirection : Vector3)
    : Matrix4 :=
  multiplyMatrices (invert (lightOrientationMatrix sunDirection)) (matrixWorld camera).

(** Lines 221-224: the dot product of the sun direction and the surface
    normal under the camera, and the light distance. *)
Definition zenithAngle (camera : PerspectiveCamera) (sunDirection : Vector3)
    (ellipsoid : Ellipsoid) : R :=
  v3_dot sunDirection (getSurfaceNormal ellipsoid (getWorldPosition camera)).

Definition lightDistance (camera : PerspectiveCamera) (sunDirection : Vector3)
    (ellipsoid : Ellipsoid) : R :=
  lerp 1e6 1e3 (zenithAngle camera sunDirection ellipsoid).

(** Lines 236-243: the light-space bounding box of the eight corners. *)
Definition lightSpaceBox (frustum : FrustumCorners) (cameraToLight : Matrix4) : Box3 :=
  let f := frustum_applyMatrix4 frustum cameraToLight in
  fold_left
    (fun bbox j => expandByPoint (expandByPoint bbox (nth j (fnear f) v3_zero))
                                 (nth j (ffar f) v3_zero))
    (seq 0 4) None.

(** Lines 247-254: snapping x and y to the texel grid of the cascade's
    own projection. *)
Definition snapToTexel (projection : Matrix4) (cascadeSize : R) (center : Vector3)
    : Vector3 :=
  let '(left_, right_, top, bottom) := extractOrthographicTuple projection in
  let texelWidth := (right_ - left_) / cascadeSize in
  let texelHeight := (top - bottom) / cascadeSize in
  mkV3 (js_round (vx center / texelWidth) * texelWidth)
       (js_round (vy center / texelHeight) * texelHeight)
       (vz center).

(** Lines 244-254: the light-space look-at target. *)
Definition lightSpaceTarget (margin cascadeSize : R) (projection : Matrix4)
    (bbox : Box3) : Vector3 :=
  let center := getCenter bbox in
  let center := mkV3 (vx center) (vy center) (vz (box_max bbox) + margin) in
  snapToTexel projection cascadeSize center.

(** Line 256: the target back in world space. *)
Definition worldTarget (st : CascadedShadows) (camera : PerspectiveCamera)
    (sunDirection : Vector3) (frustum : FrustumCorners) (c : Cascade) : Vector3 :=
  applyMatrix4
    (lightSpaceTarget (margin st) (cascadeSize st) (projectionMatrix c)
       (lightSpaceBox frustum (cameraToLightMatrix camera sunDirection)))
    (lightOrientationMatrix sunDirection).

(** Lines 257-260: [sunDirection * distance + center]. *)
Definition lightPosition (target sunDirection : Vector3) (distance : R) : Vector3 :=
  v3_add (v3_multiplyScalar sunDirection distance) target.

(** Lines 261-263. *)
Definition cascadeInverseView (prev : Matrix4) (target position : Vector3) : Matrix4 :=
  setPosition (lookAt prev target position DEFAULT_UP) position.

Definition placeCascade (st : CascadedShadows) (camera : PerspectiveCamera)
    (sunDirection : Vector3) (ellipsoid : Ellipsoid) (frustum : FrustumCorners)
    (c : Cascade) : Cascade :=
  let target := worldTarget st camera sunDirection frustum c in
  let position := lightPosition target sunDirection
                    (lightDistance camera sunDirection ellipsoid) in
  set_inverseViewMatrix c (cascadeInverseView (inverseViewMatrix c) target position).

(** [updateInverseViewMatrix(camera, sunDirection, ellipsoid)] (lines 205-265). *)
Definition updateInverseViewMatrix (st : CascadedShadows) (camera : PerspectiveCamera)
    (sunDirection : Vector3) (ellipsoid : Ellipsoid) : Result :=
  if Nat.eqb (length (frusta st)) (length (cascades st)) then
    Returned (with_cascades st
      (map (fun '(frustum, c) => placeCascade st camera sunDirection ellipsoid frustum c)
           (combine (frusta st) (cascades st))))
  else Threw st.

(** Lines 278-289: the derived matrices of one cascade. *)
Definition finishCascade (c : Cascade) : Cascade :=
  let inverseProjectionMatrix := invert (projectionMatrix c) in
  let viewMatrix := invert (inverseViewMatrix c) in
  let matrix := multiplyMatrices (projectionMatrix c) viewMatrix in
  let inverseMatrix := multiplyMatrices (inverseViewMatrix c) inverseProjectionMatrix in
  mkCascade (interval c) matrix inverseMatrix (projectionMatrix c)
            inverseProjectionMatrix viewMatrix (inverseViewMatrix c).

(** [update(camera, sunDirection, ellipsoid)] (lines 267-291). *)
Definition update (st : CascadedShadows) (camera : PerspectiveCamera)
    (sunDirection : Vector3) (ellipsoid : Ellipsoid) : Result :=
  let st1 := updateIntervals st camera in
  match updateProjectionMatrix st1 camera with
  | Threw s => Threw s
  | Returned st2 =>
      match updateInverseViewMatrix st2 camera sunDirection ellipsoid with
      | Threw s => Threw s
      | Returned st3 => Returned (with_cascades st3 (map finishCascade (cascades st3)))
      end
  end.

(** ** [CloudsShadowMaterial.cascadeCount] (lines 518-527)

    [defines.CASCADE_COUNT] holds the string [`${value}`] and the getter
    reads it back with unary [+], which returns the same number; it is
    modelled by the number itself, [None] while the define is absent (the
    getter then gives [NaN], which no value equals).  Setting
    [needsUpdate = true] increments the material's [version] in three.js. *)
Record CloudsShadowMaterial := mkMaterial {
  CASCADE_COUNT : option nat;
  version : nat }.

Definition material_cascadeCount_equals (m : CloudsShadowMaterial) (value : nat) : bool :=
  match CASCADE_COUNT m with
  | Some c => Nat.eqb value c
  | None => false
  end.

Definition material_set_cascadeCount (m : CloudsShadowMaterial) (value : nat)
    : CloudsShadowMaterial :=
  if material_cascadeCount_equals m value then m
  else mkMaterial (Some value) (S (version m)).

(** ** Object identity of the cascades

    The [cascadeCount] setter again, over a store: [cascades] holds
    references to objects of a heap, and [??=] allocates a fresh object. *)
Module CascadeStore.

Definition loc := nat.

Record Store := mkStore {
  refs : list loc;
  heap : loc -> option Cascade;
  nextLoc : loc }.

(** [this.cascades[i] ??= { ...new objects... }]: the object literal is
    only evaluated, hence allocated, when the entry is absent. *)
Definition nullishAssign (s : Store) (i : nat) : Store :=
  match nth_error (refs s) i with
  | Some _ => s
  | None =>
      let l := nextLoc s in
      mkStore (refs s ++ [l])
              (fun l' => if Nat.eqb l' l then Some newCascade else heap s l')
              (S l)
  end.

Fixpoint fill (s : Store) (i k : nat) : Store :=
  match k with
  | O => s
  | S k' => fill (nullishAssign s i) (S i) k'
  end.

Definition set_cascadeCount (s : Store) (value : nat) : Store :=
  if Nat.eqb value (length (refs s)) then s
  else
    let s' := fill s 0 value in
    mkStore (firstn value (refs s')) (heap s') (nextLoc s').

(** Every reference is allocated and no location from [nextLoc] on is. *)
Definition wf (s : Store) : Prop :=
  (forall l, In l (refs s) -> (l < nextLoc s)%nat /\ heap s l <> None) /\
  (forall l, (nextLoc s <= l)%nat -> heap s l = None).

Definition empty : Store := mkStore [] (fun _ => None) 0%nat.

End CascadeStore.

(** ** Concrete inputs *)

(** One fresh cascade, [far = 100], the [uniform] split, margin 0. *)
Definition exampleState : CascadedShadows :=
  mkCS [newCascade] 1024 100 uniform 0.5 0 true [] [].

(** A camera at the origin of the world with near and far planes
    [near] and [far]. *)
Definition exampleCamera (near far : R) : PerspectiveCamera :=
  mkCamera near far m4_identity m4_identity.

Definition exampleSun : Vector3 := mkV3 0 0 1.

(** A camera at world position [p]. *)
Definition cameraAt (p : Vector3) : PerspectiveCamera :=
  mkCamera 1 10 (setPosition m4_identity p) m4_identity.

Definition WGS84_c : R := 6356752.3142451793.

(** A camera on the polar axis, on the WGS84 ellipsoid's normal [+z]. *)
Definition poleCamera : PerspectiveCamera := cameraAt (mkV3 0 0 (WGS84_c * WGS84_c)).

(** A sub-frustum whose far face has a diagonal of length 2 and whose
    far corner 0 and near corner 2 coincide. *)
Definition exampleFrustum : FrustumCorners :=
  mkFrustum [v3_zero; v3_zero; v3_zero; v3_zero] [v3_zero; v3_zero; mkV3 2 0 0; v3_zero].

(** Modelled from the spec: the view matrix of "look-at(eye, target, up)",
    a camera at [eye] turned toward [target] by [Object3D.lookAt], which
    calls [lookAt(eye, target, up)] for cameras and lights; the view
    matrix is the inverse of its world matrix. *)
Definition lookAtViewMatrix (eye target up : Vector3) : Matrix4 :=
  invert (setPosition (lookAt m4_identity eye target up) eye).

(** ** More of the code

    The determinant [invert] computes before dividing (the [det] of its
    body). *)
Definition invertDeterminant (m : Matrix4) : R :=
  let n11 := te0 m in
  let n21 := te1 m in
  let n31 := te2 m in
  let n41 := te3 m in
  let n12 := te4 m in
  let n22 := te5 m in
  let n32 := te6 m in
  let n42 := te7 m in
  let n13 := te8 m in
  let n23 := te9 m in
  let n33 := te10 m in
  let n43 := te11 m in
  let n14 := te12 m in
  let n24 := te13 m in
  let n34 := te14 m in
  let n44 := te15 m in
  n11 * (n22 * n33 * n44 - n22 * n34 * n43 - n23 * n32 * n44
         + n23 * n34 * n42 + n24 * n32 * n43 - n24 * n33 * n42)
  - n21 * (n12 * n33 * n44 - n12 * n34 * n43 - n13 * n32 * n44
           + n13 * n34 * n42 + n14 * n32 * n43 - n14 * n33 * n42)
  + n31 * (n12 * n23 * n44 - n12 * n24 * n43 - n13 * n22 * n44
           + n13 * n24 * n42 + n14 * n22 * n43 - n14 * n23 * n42)
  - n41 * (n12 * n23 * n34 - n12 * n24 * n33 - n13 * n22 * n34
           + n13 * n24 * n32 + n14 * n22 * n33 - n14 * n23 * n32).

(** [Box3.containsPoint(p)]: [!(p.x < min.x || p.x > max.x || ...)]; the
    empty box ([min = +Infinity]) contains nothing. *)
Definition containsPoint (b : Box3) (p : Vector3) : Prop :=
  match b with
  | None => False
  | Some (mn, mx) =>
      (vx mn <= vx p <= vx mx) /\ (vy mn <= vy p <= vy mx) /\ (vz mn <= vz p <= vz mx)
  end.

(** [CascadedShadowsOptions] (lines 71-79): every key optional; [None] is
    an absent key (a key present with the value [undefined], which the
    spread would copy over the default, is not modelled). *)
Record CascadedShadowsOptions := mkOptions {
  opt_cascadeCount : option nat;
  opt_cascadeSize : option R;
  opt_far : option R;
  opt_mode : option FrustumSplitMode;
  opt_lambda : option R;
  opt_margin : option R;
  opt_fade : option bool }.

(** The seven values the constructor destructures. *)
Record CascadedShadowsConfig := mkConfig {
  cfg_cascadeCount : nat;
  cfg_cascadeSize : R;
  cfg_far : R;
  cfg_mode : FrustumSplitMode;
  cfg_lambda : R;
  cfg_margin : R;
  cfg_fade : bool }.

(** [cascadedShadowsOptionsDefaults] (lines 81-89). *)
Definition cascadedShadowsOptionsDefaults : CascadedShadowsConfig :=
  mkConfig 4 1024 1e4 practical 0.5 0 true.

Definition option_or {A} (o : option A) (d : A) : A :=
  match o with Some v => v | None => d end.

(** [{ ...cascadedShadowsOptionsDefaults, ...options }]: a key present in
    [options] overrides the default. *)
Definition spreadOptions (d : CascadedShadowsConfig) (o : CascadedShadowsOptions)
    : CascadedShadowsConfig :=
  mkConfig (option_or (opt_cascadeCount o) (cfg_cascadeCount d))
           (option_or (opt_cascadeSize o) (cfg_cascadeSize d))
           (option_or (opt_far o) (cfg_far d))
           (option_or (opt_mode o) (cfg_mode d))
           (option_or (opt_lambda o) (cfg_lambda d))
           (option_or (opt_margin o) (cfg_margin d))
           (option_or (opt_fade o) (cfg_fade d)).

(** The object before the constructor body runs: [cascades], [frusta] and
    [splits] are the empty arrays of their initializers; the six
    configuration fields are still unset (given arbitrary values here:
    the body assigns each of them without reading it). *)
Definition uninitialized : CascadedShadows :=
  mkCS [] 0 0 practical 0 0 false [] [].

(** [new CascadedShadows(options)] (lines 114-126): the [cascadeCount]
    setter first, then the six plain assignments. *)
Definition newCascadedShadows (options : CascadedShadowsOptions) : CascadedShadows :=
  let o := spreadOptions cascadedShadowsOptionsDefaults options in
  let st := set_cascadeCount uninitialized (cfg_cascadeCount o) in
  let st := set_cascadeSize st (cfg_cascadeSize o) in
  let st := set_far st (cfg_far o) in
  let st := set_mode st (cfg_mode o) in
  let st := set_lambda st (cfg_lambda o) in
  let st := set_margin st (cfg_margin o) in
  set_fade st (cfg_fade o).

(** ** The other defines of [CloudsShadowMaterial] (lines 507-516, 529-542)

    [DEPTH_PACKING] holds the string [`${value}`], read back by the getter
    with unary [+]: modelled, as [CASCADE_COUNT] is, by the number, [None]
    while absent (the getter then gives [NaN], which no value equals).
    [USE_SHAPE_DETAIL] is only read through its presence
    ([!= null]) and is written as ['1'] or deleted: modelled by its
    presence.  [needsUpdate = true] increments [definesVersion]. *)
Record MaterialDefines := mkDefines {
  DEPTH_PACKING : option R;
  USE_SHAPE_DETAIL : bool;
  definesVersion : nat }.

(** [get depthPacking()]; [None] is [NaN]. *)
Definition get_depthPacking (m : MaterialDefines) : option R := DEPTH_PACKING m.

(** [set depthPacking(value)]: [value !== this.depthPacking]. *)
Definition set_depthPacking (m : MaterialDefines) (value : R) : MaterialDefines :=
  let differs := match get_depthPacking m with
                 | Some v => if Req_EM_T value v then false else true
                 | None => true
                 end in
  if differs then mkDefines (Some value) (USE_SHAPE_DETAIL m) (S (definesVersion m))
  else m.

(** [get useShapeDetail()] *)
Definition get_useShapeDetail (m : MaterialDefines) : bool := USE_SHAPE_DETAIL m.

(** [set useShapeDetail(value)]: ['1'] or [delete], then [needsUpdate]. *)
Definition set_useShapeDetail (m : MaterialDefines) (value : bool) : MaterialDefines :=
  if Bool.eqb value (get_useShapeDetail m) then m
  else mkDefines (DEPTH_PACKING m) value (S (definesVersion m)).

(** * Properties *)

(** ** Frustum splitting *)

Lemma splitFrustum_length mode count near far lambda :
  length (splitFrustum mode count near far lambda) = count.
Proof. unfold splitFrustum. now rewrite length_map, length_seq. Qed.

Lemma splitFrustum_nth mode count near far lambda i :
  (i < count)%nat ->
  nth i (splitFrustum mode count near far lambda) 0
  = splitAt mode count near far lambda (S i).
Proof.
  intros Hi. unfold splitFrustum.
  rewrite nth_indep with (d' := splitAt mode count near far lambda 0)
    by (rewrite length_map, length_seq; exact Hi).
  rewrite map_nth, seq_nth by exact Hi. reflexivity.
Qed.

Lemma ratio_bounds (i n : nat) :
  (1 <= i <= n)%nat -> 0 < INR i / INR n <= 1.
Proof.
  intros [H1 H2].
  assert (Hi : 0 < INR i) by (apply lt_0_INR; lia).
  assert (Hin : INR i <= INR n) by (apply le_INR; lia).
  assert (Heq : INR i = (INR i / INR n) * INR n) by (field; lra).
  split.
  - apply Rdiv_lt_0_compat; lra.
  - nra.
Qed.

Lemma ratio_lt (i j n : nat) :
  (1 <= n)%nat -> (i < j)%nat -> INR i / INR n < INR j / INR n.
Proof.
  intros Hn Hij.
  assert (0 < INR n) by (apply lt_0_INR; lia).
  assert (INR i < INR j) by (apply lt_INR; lia).
  unfold Rdiv. apply Rmult_lt_compat_r; [apply Rinv_0_lt_compat; lra | lra].
Qed.

Lemma uniformSplit_ratio count near far i :
  uniformSplit count near far i = near + (far - near) * (INR i / INR count).
Proof. unfold uniformSplit, Rdiv. ring. Qed.

Lemma base_gt_1 near far : 0 < near < far -> 1 < far / near.
Proof.
  intros [H1 H2]. apply (Rmult_lt_reg_r near); [lra |].
  unfold Rdiv. rewrite Rmult_assoc, Rinv_l by lra. lra.
Qed.

Lemma log_lt near far t1 t2 :
  0 < near < far -> t1 < t2 ->
  near * Rpower (far / near) t1 < near * Rpower (far / near) t2.
Proof.
  intros Hnf Ht. apply Rmult_lt_compat_l; [lra |].
  apply Rpower_lt; [apply base_gt_1; exact Hnf | exact Ht].
Qed.

Lemma log_bounds near far t :
  0 < near < far -> 0 < t <= 1 ->
  near < near * Rpower (far / near) t <= far.
Proof.
  intros Hnf [Ht0 Ht1].
  pose proof (base_gt_1 _ _ Hnf) as Hb.
  split.
  - pose proof (log_lt near far 0 t Hnf Ht0) as H.
    rewrite Rpower_O in H by lra. lra.
  - assert (H : Rpower (far / near) t <= Rpower (far / near) 1)
      by (apply Rle_Rpower; lra).
    rewrite Rpower_1 in H by lra.
    apply (Rmult_le_compat_l near) in H; [| lra].
    replace (near * (far / near)) with far in H by (field; lra). exact H.
Qed.

Lemma convex_gt l x y z :
  0 <= l <= 1 -> z < x -> z < y -> z < l * x + (1 - l) * y.
Proof.
  intros Hl Hx Hy. destruct (Rle_dec x y) as [Hxy | Hxy].
  - assert (0 <= (1 - l) * (y - x)) by (apply Rmult_le_pos; lra). nra.
  - assert (0 <= l * (x - y)) by (apply Rmult_le_pos; lra). nra.
Qed.

Lemma convex_le l x y z :
  0 <= l <= 1 -> x <= z -> y <= z -> l * x + (1 - l) * y <= z.
Proof.
  intros Hl Hx Hy.
  assert (0 <= l * (z - x)) by (apply Rmult_le_pos; lra).
  assert (0 <= (1 - l) * (z - y)) by (apply Rmult_le_pos; lra). nra.
Qed.

Lemma splitAt_bounds mode count near far lambda i :
  0 < near < far -> (mode = practical -> 0 <= lambda <= 1) ->
  (1 <= i <= count)%nat ->
  near < splitAt mode count near far lambda i <= far.
Proof.
  intros Hnf Hl Hi.
  pose proof (ratio_bounds i count Hi) as Ht.
  assert (Hu : near < uniformSplit count near far i <= far)
    by (rewrite uniformSplit_ratio; split; nra).
  assert (Hg : near < logarithmicSplit count near far i <= far)
    by (apply log_bounds; assumption).
  destruct mode; simpl; try assumption.
  specialize (Hl eq_refl). split.
  - apply convex_gt; lra.
  - apply convex_le; lra.
Qed.

Lemma splitAt_lt mode count near far lambda i j :
  0 < near < far -> (mode = practical -> 0 <= lambda <= 1) ->
  (1 <= count)%nat -> (i < j)%nat ->
  splitAt mode count near far lambda i < splitAt mode count near far lambda j.
Proof.
  intros Hnf Hl Hc Hij.
  pose proof (ratio_lt i j count Hc Hij) as Ht.
  assert (Hu : uniformSplit count near far i < uniformSplit count near far j)
    by (rewrite !uniformSplit_ratio; nra).
  assert (Hg : logarithmicSplit count near far i < logarithmicSplit count near far j)
    by (apply log_lt; assumption).
  destruct mode; simpl; try assumption.
  specialize (Hl eq_refl).
  pose proof (convex_gt lambda (logarithmicSplit count near far j - logarithmicSplit count near far i)
                (uniformSplit count near far j - uniformSplit count near far i) 0 Hl)
    as H. lra.
Qed.

Lemma splitAt_last mode count near far lambda :
  0 < near < far -> (1 <= count)%nat ->
  splitAt mode count near far lambda count = far.
Proof.
  intros Hnf Hc.
  assert (Hn : 0 < INR count) by (apply lt_0_INR; lia).
  assert (Hr : INR count / INR count = 1) by (field; lra).
  assert (Hu : uniformSplit count near far count = far)
    by (rewrite uniformSplit_ratio, Hr; ring).
  assert (Hg : logarithmicSplit count near far count = far).
  { unfold logarithmicSplit. rewrite Hr, Rpower_1.
    - field; lra.
    - apply Rdiv_lt_0_compat; lra. }
  destruct mode; simpl; rewrite ?Hu, ?Hg; ring.
Qed.

(** Claim C1 (amended): for [count >= 1], [0 < near < far] and, in
    [practical] mode, [0 <= lambda <= 1], [splitFrustum] gives exactly
    [count] strictly increasing distances in [(near, far]]; the last one is
    [far]; the [i]-th ([i = 1 .. count]) follows the formula of its mode;
    with near 1, far 1000, count 4, [uniform] gives
    [250.75, 500.5, 750.25, 1000]. *)
Theorem splitFrustum_spec (mode : FrustumSplitMode) (count : nat) (near far lambda : R)
    (Hc : (1 <= count)%nat) (Hnf : 0 < near < far)
    (Hl : mode = practical -> 0 <= lambda <= 1) :
  let s := splitFrustum mode count near far lambda in
  length s = count /\
  (forall i j, (i < j < count)%nat -> nth i s 0 < nth j s 0) /\
  (forall i, (i < count)%nat -> near < nth i s 0 <= far) /\
  nth (count - 1) s 0 = far /\
  (forall i, (1 <= i <= count)%nat ->
     nth (i - 1) s 0 =
       match mode with
       | uniform => near + (far - near) * INR i / INR count
       | logarithmic => near * Rpower (far / near) (INR i / INR count)
       | practical =>
           lambda * (near * Rpower (far / near) (INR i / INR count))
           + (1 - lambda) * (near + (far - near) * INR i / INR count)
       end) /\
  splitFrustum uniform 4 1 1000 lambda = [250.75; 500.5; 750.25; 1000].
Proof.
  intros s. unfold s.
  split; [apply splitFrustum_length |].
  split.
  { intros i j Hij. rewrite !splitFrustum_nth by lia.
    apply splitAt_lt; auto; lia. }
  split.
  { intros i Hi. rewrite splitFrustum_nth by lia.
    apply splitAt_bounds; auto; lia. }
  split.
  { rewrite splitFrustum_nth by lia.
    replace (S (count - 1)) with count by lia.
    apply splitAt_last; assumption. }
  split.
  { intros i Hi. rewrite splitFrustum_nth by lia.
    replace (S (i - 1)) with i by lia. destruct mode; reflexivity. }
  cbv [splitFrustum seq map splitAt uniformSplit].
  repeat match goal with |- cons _ _ = cons _ _ => f_equal end; simpl; lra.
Qed.

Lemma splitFrustum_spec_witness :
  (1 <= 4)%nat /\ 0 < 1 < 1000 /\ (practical = practical -> 0 <= 1 / 2 <= 1) /\
  nth 3 (splitFrustum practical 4 1 1000 (1 / 2)) 0 = 1000.
Proof.
  assert (Hc : (1 <= 4)%nat) by lia.
  assert (Hnf : 0 < 1 < 1000) by lra.
  assert (Hl : practical = practical -> 0 <= 1 / 2 <= 1) by (intros; lra).
  split; [exact Hc | split; [exact Hnf | split; [exact Hl |]]].
  exact (proj1 (proj2 (proj2 (proj2 (splitFrustum_spec practical 4 1 1000 (1 / 2) Hc Hnf Hl))))).
Defined.

(** Claim C1, refuted as stated: with near 1, far 1000, count 4, [uniform]
    gives [250.75, ...], not [250, 500, 750, 1000]; and the last split is
    [far] itself, which does not lie in the open interval [(near, far)]. *)
Lemma splitFrustum_claim_counterexample :
  splitFrustum uniform 4 1 1000 0 <> [250; 500; 750; 1000] /\
  nth 0 (splitFrustum uniform 1 1 2 0) 0 = 2 /\
  ~ (nth 0 (splitFrustum uniform 1 1 2 0) 0 < 2).
Proof.
  assert (H1 : nth 0 (splitFrustum uniform 1 1 2 0) 0 = 2)
    by (cbv [splitFrustum seq map splitAt uniformSplit nth]; simpl; field).
  split; [| split; [exact H1 | rewrite H1; lra]].
  cbv [splitFrustum seq map splitAt uniformSplit]. intros H.
  injection H as H _ _ _. simpl in H. lra.
Qed.

(** ** The pipeline of [update] *)

Lemma nth_error_combine {A B} (l1 : list A) (l2 : list B) i :
  nth_error (combine l1 l2) i =
  match nth_error l1 i, nth_error l2 i with
  | Some a, Some b => Some (a, b)
  | _, _ => None
  end.
Proof.
  revert l2 i. induction l1 as [| a l1 IH]; intros [| b l2] [| i]; simpl; auto.
  destruct (nth_error l1 i); reflexivity.
Qed.

Lemma nth_error_imapFrom {A B} (f : nat -> A -> B) (l : list A) k i :
  nth_error (imapFrom f k l) i = option_map (f (k + i)%nat) (nth_error l i).
Proof.
  revert k i. induction l as [| x l IH]; intros k [| i]; simpl; auto.
  - now rewrite Nat.add_0_r.
  - rewrite IH. now replace (S k + i)%nat with (k + S i)%nat by lia.
Qed.

Lemma nth_error_imap {A B} (f : nat -> A -> B) (l : list A) i :
  nth_error (imap f l) i = option_map (f i) (nth_error l i).
Proof. apply nth_error_imapFrom. Qed.

Lemma length_imapFrom {A B} (f : nat -> A -> B) (l : list A) k :
  length (imapFrom f k l) = length l.
Proof. revert k. induction l; simpl; auto. Qed.

Lemma length_splitFrom frustum t0 splits :
  length (splitFrom frustum t0 splits) = length splits.
Proof. revert t0. induction splits; simpl; auto. Qed.

Lemma updateIntervals_frusta_length st camera :
  length (frusta (updateIntervals st camera)) = cascadeCount st.
Proof.
  unfold updateIntervals, splitCorners; simpl.
  now rewrite length_splitFrom, splitFrustum_length.
Qed.

Lemma updateIntervals_cascades_length st camera :
  length (cascades (updateIntervals st camera)) = cascadeCount st.
Proof. unfold updateIntervals, imap; simpl. apply length_imapFrom. Qed.

Lemma updateIntervals_lengths st camera :
  length (frusta (updateIntervals st camera))
  = length (cascades (updateIntervals st camera)).
Proof.
  now rewrite updateIntervals_frusta_length, updateIntervals_cascades_length.
Qed.

(** [update] unfolded: on the state left by [updateIntervals], both
    matrix passes return and each cascade goes through the three
    per-cascade steps. *)
Lemma update_unfold st camera sunDirection ellipsoid :
  let st1 := updateIntervals st camera in
  let cs2 := map (fun '(frustum, c) =>
                    set_projectionMatrix c (cascadeProjection st1 camera frustum))
                 (combine (frusta st1) (cascades st1)) in
  let cs3 := map (fun '(frustum, c) =>
                    placeCascade (with_cascades st1 cs2) camera sunDirection ellipsoid frustum c)
                 (combine (frusta st1) cs2) in
  update st camera sunDirection ellipsoid
  = Returned (with_cascades (with_cascades (with_cascades st1 cs2) cs3)
                            (map finishCascade cs3)).
Proof.
  intros st1 cs2 cs3. unfold update, updateProjectionMatrix.
  assert (Hl1 : length (frusta st1) = length (cascades st1))
    by apply updateIntervals_lengths.
  assert (Hl2 : length (frusta st1) = length cs2).
  { unfold cs2. rewrite length_map, length_combine, <- Hl1. symmetry. apply Nat.min_id. }
  subst cs3. subst cs2. subst st1.
  rewrite Hl1, Nat.eqb_refl.
  unfold updateInverseViewMatrix. simpl. simpl in Hl2.
  rewrite Hl2, Nat.eqb_refl. reflexivity.
Qed.

Lemma nth_error_map_combine {A B C} (f : A * B -> C) l1 l2 i a b :
  nth_error l1 i = Some a -> nth_error l2 i = Some b ->
  nth_error (map f (combine l1 l2)) i = Some (f (a, b)).
Proof.
  intros H1 H2. rewrite nth_error_map, nth_error_combine, H1, H2. reflexivity.
Qed.

(** What [update] leaves in cascade [i]. *)
Lemma update_nth st camera sunDirection ellipsoid i c0 :
  nth_error (cascades st) i = Some c0 ->
  exists st' frustum c,
    update st camera sunDirection ellipsoid = Returned st' /\
    splits st' = splitFrustum (mode st) (cascadeCount st) (cam_near camera)
                   (Rmin (cs_far st) (cam_far camera)) (lambda st) /\
    length (cascades st') = cascadeCount st /\
    length (frusta st') = cascadeCount st /\
    nth_error (frusta st') i = Some frustum /\
    nth_error (cascades st') i = Some c /\
    interval c = mkV2 (prevSplit (splits st') i) (curSplit (splits st') i) /\
    projectionMatrix c = cascadeProjection st camera frustum /\
    (let target :=
       applyMatrix4
         (lightSpaceTarget (margin st) (cascadeSize st) (cascadeProjection st camera frustum)
            (lightSpaceBox frustum (cameraToLightMatrix camera sunDirection)))
         (lightOrientationMatrix sunDirection) in
     let position := lightPosition target sunDirection
                       (lightDistance camera sunDirection ellipsoid) in
     inverseViewMatrix c = cascadeInverseView (inverseViewMatrix c0) target position) /\
    viewMatrix c = invert (inverseViewMatrix c) /\
    inverseProjectionMatrix c = invert (projectionMatrix c) /\
    matrix c = multiplyMatrices (projectionMatrix c) (viewMatrix c) /\
    inverseMatrix c = multiplyMatrices (inverseViewMatrix c) (inverseProjectionMatrix c).
Proof.
  intros Hc0.
  set (st1 := updateIntervals st camera).
  assert (Hlf : length (frusta st1) = cascadeCount st)
    by apply updateIntervals_frusta_length.
  assert (Hlc : length (cascades st1) = cascadeCount st)
    by apply updateIntervals_cascades_length.
  assert (Hi : (i < length (frusta st1))%nat).
  { rewrite Hlf. unfold cascadeCount.
    apply nth_error_Some. congruence. }
  destruct (nth_error (frusta st1) i) as [frustum |] eqn:Hfr;
    [| apply nth_error_Some in Hi; contradiction].
  assert (Hc1 : nth_error (cascades st1) i
                = Some (set_interval c0 (mkV2 (prevSplit (splits st1) i)
                                              (curSplit (splits st1) i)))).
  { unfold st1, updateIntervals; simpl. rewrite nth_error_imap, Hc0. reflexivity. }
  assert (Hsp : splits st1 = splitFrustum (mode st) (cascadeCount st) (cam_near camera)
                   (Rmin (cs_far st) (cam_far camera)) (lambda st)) by reflexivity.
  assert (Hpr : forall fr, cascadeProjection st1 camera fr = cascadeProjection st camera fr)
    by reflexivity.
  assert (Hcf : margin st1 = margin st /\ cascadeSize st1 = cascadeSize st) by (split; reflexivity).
  rewrite update_unfold. fold st1. clearbody st1.
  eexists. exists frustum. eexists.
  split; [reflexivity |]. unfold with_cascades; cbn [cascades frusta splits].
  split; [exact Hsp |].
  split.
  { repeat rewrite ?length_map, ?length_combine. rewrite Hlf, Hlc, !Nat.min_id. reflexivity. }
  split; [exact Hlf |].
  split; [exact Hfr |].
  split.
  { rewrite nth_error_map.
    erewrite nth_error_map_combine; [reflexivity | exact Hfr |].
    eapply nth_error_map_combine; [exact Hfr | exact Hc1]. }
  destruct Hcf as [Hm Hs].
  unfold finishCascade, placeCascade, worldTarget, set_inverseViewMatrix,
    set_projectionMatrix, set_interval.
  cbn [interval matrix inverseMatrix projectionMatrix inverseProjectionMatrix
       viewMatrix inverseViewMatrix margin cascadeSize].
  rewrite Hpr, Hm, Hs, Hsp. repeat split; reflexivity.
Qed.

Lemma update_nth_of st camera sunDirection ellipsoid st' i c0 :
  update st camera sunDirection ellipsoid = Returned st' ->
  nth_error (cascades st) i = Some c0 ->
  exists frustum c,
    splits st' = splitFrustum (mode st) (cascadeCount st) (cam_near camera)
                   (Rmin (cs_far st) (cam_far camera)) (lambda st) /\
    length (cascades st') = cascadeCount st /\
    length (frusta st') = cascadeCount st /\
    nth_error (frusta st') i = Some frustum /\
    nth_error (cascades st') i = Some c /\
    interval c = mkV2 (prevSplit (splits st') i) (curSplit (splits st') i) /\
    projectionMatrix c = cascadeProjection st camera frustum /\
    (let target :=
       applyMatrix4
         (lightSpaceTarget (margin st) (cascadeSize st) (cascadeProjection st camera frustum)
            (lightSpaceBox frustum (cameraToLightMatrix camera sunDirection)))
         (lightOrientationMatrix sunDirection) in
     let position := lightPosition target sunDirection
                       (lightDistance camera sunDirection ellipsoid) in
     inverseViewMatrix c = cascadeInverseView (inverseViewMatrix c0) target position) /\
    viewMatrix c = invert (inverseViewMatrix c).
Proof.
  intros Hu Hc0.
  destruct (update_nth st camera sunDirection ellipsoid i c0 Hc0)
    as (st'' & frustum & c & Hu' & H1 & H2 & H3 & H4 & H5 & H6 & H7 & H8 & H9 & _).
  rewrite Hu' in Hu. injection Hu as <-.
  exists frustum, c. repeat split; assumption.
Qed.

Lemma update_returns st camera sunDirection ellipsoid :
  exists st', update st camera sunDirection ellipsoid = Returned st'.
Proof. rewrite update_unfold. eexists. reflexivity. Qed.

Lemma nth_map_of_nth_error {A B} (f : A -> B) (l : list A) i x d :
  nth_error l i = Some x -> nth i (map f l) d = f x.
Proof.
  intros H. apply nth_error_nth. rewrite nth_error_map, H. reflexivity.
Qed.

Lemma cascade_exists (st : CascadedShadows) i :
  (i < cascadeCount st)%nat -> exists c0, nth_error (cascades st) i = Some c0.
Proof.
  intros Hi. destruct (nth_error (cascades st) i) as [c0 |] eqn:E; [eauto |].
  apply nth_error_None in E. unfold cascadeCount in Hi. lia.
Qed.

(** The interval of cascade [i] after [update]. *)
Lemma update_interval_at st camera sunDirection ellipsoid st' i :
  update st camera sunDirection ellipsoid = Returned st' ->
  (i < cascadeCount st)%nat ->
  let s := splitFrustum (mode st) (cascadeCount st) (cam_near camera)
             (Rmin (cs_far st) (cam_far camera)) (lambda st) in
  nth i (map interval (cascades st')) (mkV2 0 0) = mkV2 (prevSplit s i) (curSplit s i).
Proof.
  intros Hu Hi s.
  destruct (cascade_exists st i Hi) as [c0 Hc0].
  destruct (update_nth_of st camera sunDirection ellipsoid st' i c0 Hu Hc0)
    as (frustum & c & Hs & _ & _ & _ & Hc & Hiv & _).
  rewrite (nth_map_of_nth_error _ _ _ _ _ Hc), Hiv, Hs. reflexivity.
Qed.

Lemma curSplit_nth (s : list R) i :
  (i < length s)%nat -> curSplit s i = nth i s 0.
Proof.
  intros Hi. unfold curSplit.
  destruct (nth_error s i) eqn:E.
  - symmetry. apply nth_error_nth. exact E.
  - apply nth_error_None in E. lia.
Qed.

Lemma prevSplit_nth (s : list R) i :
  (i < length s)%nat -> prevSplit s (S i) = nth i s 0.
Proof. intros Hi. apply curSplit_nth. exact Hi. Qed.

(** Claim C2 (amended): after [update], with [cascadeCount >= 1],
    [0 < camera.near < min(this.far, camera.far)] and, in [practical] mode,
    [0 <= lambda <= 1], the intervals are non-empty, chain (the far end of
    cascade [i] is the near end of cascade [i + 1]) and end at
    [min(this.far, camera.far)]; the first one starts at 0, not at
    [camera.near], and every later one starts beyond [camera.near]. *)
Theorem update_intervals_chain (st : CascadedShadows) (camera : PerspectiveCamera)
    (sunDirection : Vector3) (ellipsoid : Ellipsoid)
    (Hc : (1 <= cascadeCount st)%nat)
    (Hn : 0 < cam_near camera < Rmin (cs_far st) (cam_far camera))
    (Hl : mode st = practical -> 0 <= lambda st <= 1) :
  exists st', update st camera sunDirection ellipsoid = Returned st' /\
    let n := cascadeCount st in
    let iv := map interval (cascades st') in
    length iv = n /\
    v2x (nth 0 iv (mkV2 0 0)) = 0 /\
    (forall i, (i < n)%nat -> v2x (nth i iv (mkV2 0 0)) < v2y (nth i iv (mkV2 0 0))) /\
    (forall i, (S i < n)%nat -> v2y (nth i iv (mkV2 0 0)) = v2x (nth (S i) iv (mkV2 0 0))) /\
    (forall i, (0 < i < n)%nat -> cam_near camera < v2x (nth i iv (mkV2 0 0))) /\
    v2y (nth (n - 1) iv (mkV2 0 0)) = Rmin (cs_far st) (cam_far camera).
Proof.
  destruct (update_returns st camera sunDirection ellipsoid) as [st' Hu].
  exists st'. split; [exact Hu |]. intros n iv.
  set (far := Rmin (cs_far st) (cam_far camera)) in *.
  set (s := splitFrustum (mode st) n (cam_near camera) far (lambda st)).
  assert (Hs : length s = n) by apply splitFrustum_length.
  assert (Hat : forall i, (i < n)%nat ->
            nth i iv (mkV2 0 0) = mkV2 (prevSplit s i) (curSplit s i))
    by (intros i Hi; exact (update_interval_at st camera sunDirection ellipsoid st' i Hu Hi)).
  assert (Hnf : 0 < cam_near camera < far) by exact Hn.
  assert (Hv : forall i, (i < n)%nat ->
            nth i s 0 = splitAt (mode st) n (cam_near camera) far (lambda st) (S i))
    by (intros i Hi; apply splitFrustum_nth; exact Hi).
  split.
  { unfold iv. rewrite length_map.
    destruct (cascade_exists st 0 ltac:(lia)) as [c0 Hc0].
    destruct (update_nth_of st camera sunDirection ellipsoid st' 0 c0 Hu Hc0)
      as (fr & c & _ & Hlen & _). exact Hlen. }
  split.
  { rewrite Hat by lia. reflexivity. }
  split.
  { intros i Hi. rewrite Hat by exact Hi. cbn [v2x v2y].
    rewrite curSplit_nth by lia. destruct i as [| k].
    - simpl prevSplit. rewrite Hv by exact Hi.
      pose proof (splitAt_bounds (mode st) n (cam_near camera) far (lambda st) 1 Hnf Hl
                    ltac:(lia)). lra.
    - rewrite prevSplit_nth by lia. rewrite !Hv by lia.
      apply splitAt_lt; auto; lia. }
  split.
  { intros i Hi. rewrite !Hat by lia. cbn [v2x v2y].
    rewrite prevSplit_nth by lia. apply curSplit_nth. lia. }
  split.
  { intros i Hi. rewrite Hat by lia. cbn [v2x].
    destruct i as [| k]; [lia |].
    rewrite prevSplit_nth by lia. rewrite Hv by lia.
    apply splitAt_bounds; auto; lia. }
  rewrite Hat by lia. cbn [v2y]. rewrite curSplit_nth by lia. rewrite Hv by lia.
  replace (S (n - 1)) with n by lia.
  apply splitAt_last; [exact Hnf | exact Hc].
Qed.

Lemma update_intervals_chain_witness :
  exists st', update exampleState (exampleCamera 1 10) exampleSun WGS84 = Returned st' /\
    v2y (nth 0 (map interval (cascades st')) (mkV2 0 0)) = 10.
Proof.
  assert (Hc : (1 <= cascadeCount exampleState)%nat) by (cbv; lia).
  assert (Hn : 0 < cam_near (exampleCamera 1 10)
               < Rmin (cs_far exampleState) (cam_far (exampleCamera 1 10))).
  { cbn. unfold Rmin. destruct (Rle_dec 100 10); lra. }
  assert (Hl : mode exampleState = practical -> 0 <= lambda exampleState <= 1)
    by (cbn; intros; lra).
  destruct (update_intervals_chain exampleState (exampleCamera 1 10) exampleSun WGS84 Hc Hn Hl)
    as (st' & Hu & _ & _ & _ & _ & _ & Hlast).
  exists st'. split; [exact Hu |].
  change 0%nat with (cascadeCount exampleState - 1)%nat.
  rewrite Hlast. cbn. unfold Rmin. destruct (Rle_dec 100 10); lra.
Defined.

(** Claim C2, refuted as stated: the first interval starts at 0, not at
    [camera.near] ([splits[-1] ?? 0]). *)
Lemma update_intervals_first_counterexample :
  exists st', update exampleState (exampleCamera 1 10) exampleSun WGS84 = Returned st' /\
    v2x (nth 0 (map interval (cascades st')) (mkV2 0 0)) = 0 /\
    v2x (nth 0 (map interval (cascades st')) (mkV2 0 0))
      <> cam_near (exampleCamera 1 10).
Proof.
  destruct (update_returns exampleState (exampleCamera 1 10) exampleSun WGS84) as [st' Hu].
  exists st'. split; [exact Hu |].
  rewrite (update_interval_at _ _ _ _ st' 0 Hu ltac:(cbv; lia)). cbn. lra.
Qed.

(** ** Fitting the cascades *)

(** Claim C6: the radius is half the larger of the far-face diagonal
    (far corner 0 to far corner 2) and the frustum diagonal (far corner 0
    to near corner 2), the diagonal first inflated by
    [0.25 * t^2 * (far - near)] with [t = farCorner0.z / (far - near)],
    [near = camera.near] and [far = min(this.far, camera.far)] when fade is
    on. *)
Theorem getFrustumRadius_formula (st : CascadedShadows) (camera : PerspectiveCamera)
    (frustum : FrustumCorners) :
  let f0 := nth 0 (ffar frustum) v3_zero in
  let f2 := nth 2 (ffar frustum) v3_zero in
  let n2 := nth 2 (fnear frustum) v3_zero in
  let near := cam_near camera in
  let far := Rmin (cs_far st) (cam_far camera) in
  let diagonal := Rmax (v3_distanceTo f0 f2) (v3_distanceTo f0 n2) in
  let t := vz f0 / (far - near) in
  getFrustumRadius st camera frustum =
    (if fade st then diagonal + 0.25 * t ^ 2 * (far - near) else diagonal) / 2.
Proof.
  intros. subst f0 f2 n2 near far diagonal t. unfold getFrustumRadius.
  cbv zeta. destruct (fade st);
    match goal with |- ?x * _ = _ => generalize x end; intros; lra.
Qed.

Lemma update_cascades_length st camera sunDirection ellipsoid st' :
  update st camera sunDirection ellipsoid = Returned st' ->
  length (cascades st') = cascadeCount st.
Proof.
  rewrite update_unfold. cbv zeta. intros Hu. injection Hu as <-.
  unfold with_cascades; cbn [cascades frusta].
  repeat rewrite ?length_map, ?length_combine.
  unfold splitCorners, imap.
  rewrite length_splitFrom, length_imapFrom, splitFrustum_length, !Nat.min_id.
  reflexivity.
Qed.

Lemma update_cascade_of st camera sunDirection ellipsoid st' i c :
  update st camera sunDirection ellipsoid = Returned st' ->
  nth_error (cascades st') i = Some c ->
  exists c0 frustum,
    nth_error (cascades st) i = Some c0 /\
    nth_error (frusta st') i = Some frustum /\
    projectionMatrix c = cascadeProjection st camera frustum /\
    (let target :=
       applyMatrix4
         (lightSpaceTarget (margin st) (cascadeSize st) (cascadeProjection st camera frustum)
            (lightSpaceBox frustum (cameraToLightMatrix camera sunDirection)))
         (lightOrientationMatrix sunDirection) in
     let position := lightPosition target sunDirection
                       (lightDistance camera sunDirection ellipsoid) in
     inverseViewMatrix c = cascadeInverseView (inverseViewMatrix c0) target position) /\
    viewMatrix c = invert (inverseViewMatrix c).
Proof.
  intros Hu Hc.
  assert (Hi : (i < cascadeCount st)%nat).
  { rewrite <- (update_cascades_length st camera sunDirection ellipsoid st' Hu).
    apply nth_error_Some. congruence. }
  destruct (cascade_exists st i Hi) as [c0 Hc0].
  destruct (update_nth_of st camera sunDirection ellipsoid st' i c0 Hu Hc0)
    as (frustum & c' & _ & _ & _ & Hfr & Hc' & _ & Hp & Hv & Hw).
  rewrite Hc in Hc'. injection Hc' as <-.
  exists c0, frustum. repeat split; assumption.
Qed.

(** Claim C8: after [update], the projection matrix of every cascade is
    the symmetric orthographic projection with [left = -radius],
    [right = radius], [top = radius], [bottom = -radius], [near = -margin]
    and [far = 2 * radius + margin], [radius] being the radius fitted to
    the cascade's sub-frustum. *)
Theorem update_projection_symmetric (st : CascadedShadows) (camera : PerspectiveCamera)
    (sunDirection : Vector3) (ellipsoid : Ellipsoid) :
  exists st', update st camera sunDirection ellipsoid = Returned st' /\
    forall i c, nth_error (cascades st') i = Some c ->
      exists frustum, nth_error (frusta st') i = Some frustum /\
        let radius := getFrustumRadius st camera frustum in
        projectionMatrix c
        = makeOrthographic (- radius) radius radius (- radius) (- margin st)
                           (2 * radius + margin st).
Proof.
  destruct (update_returns st camera sunDirection ellipsoid) as [st' Hu].
  exists st'. split; [exact Hu |].
  intros i c Hc.
  destruct (update_cascade_of st camera sunDirection ellipsoid st' i c Hu Hc)
    as (c0 & frustum & _ & Hfr & Hp & _).
  exists frustum. split; [exact Hfr |].
  rewrite Hp. unfold cascadeProjection. cbv zeta. f_equal. ring.
Qed.

Lemma update_projection_symmetric_witness :
  exists st' c frustum,
    update exampleState (exampleCamera 1 10) exampleSun WGS84 = Returned st' /\
    nth_error (cascades st') 0 = Some c /\
    nth_error (frusta st') 0 = Some frustum /\
    projectionMatrix c
    = makeOrthographic (- getFrustumRadius exampleState (exampleCamera 1 10) frustum)
        (getFrustumRadius exampleState (exampleCamera 1 10) frustum)
        (getFrustumRadius exampleState (exampleCamera 1 10) frustum)
        (- getFrustumRadius exampleState (exampleCamera 1 10) frustum)
        (- margin exampleState)
        (2 * getFrustumRadius exampleState (exampleCamera 1 10) frustum + margin exampleState).
Proof.
  destruct (update_projection_symmetric exampleState (exampleCamera 1 10) exampleSun WGS84)
    as [st' [Hu H]].
  pose proof (update_cascades_length _ _ _ _ st' Hu) as Hl.
  destruct (nth_error (cascades st') 0) as [c |] eqn:Hc.
  - destruct (H 0%nat c Hc) as [frustum [Hfr Hp]].
    exists st', c, frustum. split; [exact Hu |]. split; [exact Hc |].
    split; [exact Hfr | exact Hp].
  - apply nth_error_None in Hc. change (cascadeCount exampleState) with 1%nat in Hl. lia.
Defined.

(** Claim C9: [updateIntervals] leaves the frusta and the cascades with
    the same length, so within [update] both length checks pass and
    [update] returns; on a state whose two lists differ in length,
    [updateProjectionMatrix] and [updateInverseViewMatrix] throw, with
    the state untouched. *)
Theorem update_length_invariant (st : CascadedShadows) (camera : PerspectiveCamera)
    (sunDirection : Vector3) (ellipsoid : Ellipsoid) :
  length (frusta (updateIntervals st camera)) = length (cascades (updateIntervals st camera)) /\
  (exists st2 st3,
      updateProjectionMatrix (updateIntervals st camera) camera = Returned st2 /\
      updateInverseViewMatrix st2 camera sunDirection ellipsoid = Returned st3 /\
      update st camera sunDirection ellipsoid
      = Returned (with_cascades st3 (map finishCascade (cascades st3)))) /\
  (forall st0, length (frusta st0) <> length (cascades st0) ->
     updateProjectionMatrix st0 camera = Threw st0 /\
     updateInverseViewMatrix st0 camera sunDirection ellipsoid = Threw st0).
Proof.
  pose proof (updateIntervals_lengths st camera) as Hl.
  split; [exact Hl |]. split.
  - assert (Hwl : forall s cs, length (frusta s) = length (cascades s) ->
                  length (frusta (with_cascades s (map (fun fc : FrustumCorners * Cascade => let '(frustum, c) := fc in cs frustum c) (combine (frusta s) (cascades s)))))
                  = length (cascades (with_cascades s (map (fun fc : FrustumCorners * Cascade => let '(frustum, c) := fc in cs frustum c) (combine (frusta s) (cascades s)))))).
    { intros s cs Hs. unfold with_cascades; cbn [frusta cascades].
      rewrite length_map, length_combine, Hs, Nat.min_id. reflexivity. }
    set (st1 := updateIntervals st camera) in *.
    set (st2 := with_cascades st1
                  (map (fun '(frustum, c) =>
                          set_projectionMatrix c (cascadeProjection st1 camera frustum))
                       (combine (frusta st1) (cascades st1)))).
    assert (H2 : updateProjectionMatrix st1 camera = Returned st2).
    { unfold updateProjectionMatrix. rewrite Hl, Nat.eqb_refl. reflexivity. }
    assert (Hl2 : length (frusta st2) = length (cascades st2)) by (apply Hwl; exact Hl).
    assert (H3 : updateInverseViewMatrix st2 camera sunDirection ellipsoid
                 = Returned (with_cascades st2
                     (map (fun '(frustum, c) =>
                             placeCascade st2 camera sunDirection ellipsoid frustum c)
                          (combine (frusta st2) (cascades st2))))).
    { unfold updateInverseViewMatrix. rewrite Hl2, Nat.eqb_refl. reflexivity. }
    exists st2. eexists. split; [exact H2 |]. split; [exact H3 |].
    unfold update. cbv zeta. fold st1. rewrite H2, H3. reflexivity.
  - intros st0 Hne. apply Nat.eqb_neq in Hne.
    unfold updateProjectionMatrix, updateInverseViewMatrix. rewrite Hne. split; reflexivity.
Qed.

Lemma update_length_invariant_witness :
  length (frusta exampleState) <> length (cascades exampleState) /\
  updateProjectionMatrix exampleState (exampleCamera 1 10) = Threw exampleState /\
  updateInverseViewMatrix exampleState (exampleCamera 1 10) exampleSun WGS84
  = Threw exampleState.
Proof.
  assert (H : length (frusta exampleState) <> length (cascades exampleState))
    by (cbv; discriminate).
  split; [exact H |].
  exact (proj2 (proj2 (update_length_invariant exampleState (exampleCamera 1 10)
                          exampleSun WGS84)) exampleState H).
Defined.

(** ** Vectors of unit length *)

Lemma v3_normalize_scaled (v : Vector3) (k : R) :
  v3_lengthSq v = 1 -> 0 < k -> v3_normalize (v3_multiplyScalar v k) = v.
Proof.
  intros Hv Hk. unfold v3_normalize, v3_length.
  assert (Hl : v3_lengthSq (v3_multiplyScalar v k) = k * k).
  { unfold v3_lengthSq, v3_dot, v3_multiplyScalar in *; cbn [vx vy vz].
    transitivity ((vx v * vx v + vy v * vy v + vz v * vz v) * (k * k)); [ring |].
    rewrite Hv. ring. }
  rewrite Hl, sqrt_square by lra.
  destruct (Req_EM_T k 0) as [E | _]; [lra |].
  destruct v as [x y z]. unfold v3_multiplyScalar; cbn [vx vy vz].
  f_equal; field; lra.
Qed.

Lemma v3_normalize_unit (v : Vector3) : v3_lengthSq v = 1 -> v3_normalize v = v.
Proof.
  intros Hv. rewrite <- (v3_normalize_scaled v 1 Hv) at 2 by lra.
  f_equal. destruct v. unfold v3_multiplyScalar; cbn [vx vy vz]. f_equal; ring.
Qed.

Lemma v3_normalize_zero : v3_normalize v3_zero = v3_zero.
Proof.
  unfold v3_normalize, v3_multiplyScalar, v3_zero; cbn [vx vy vz]. f_equal; ring.
Qed.

Lemma getWorldPosition_cameraAt (p : Vector3) : getWorldPosition (cameraAt p) = p.
Proof. destruct p. reflexivity. Qed.

(** The surface normal at the origin is the zero vector, and on the
    ellipsoid's polar axis it is [+z]. *)
Lemma getSurfaceNormal_origin (ell : Ellipsoid) : getSurfaceNormal ell v3_zero = v3_zero.
Proof.
  unfold getSurfaceNormal. cbn [vx vy vz v3_zero]. unfold Rdiv. rewrite !Rmult_0_l.
  apply v3_normalize_zero.
Qed.

Lemma getSurfaceNormal_pole (c : R) :
  c <> 0 -> getSurfaceNormal (mkEllipsoid (mkV3 6378137 6378137 c)) (mkV3 0 0 (c * c))
            = mkV3 0 0 1.
Proof.
  intros Hc. unfold getSurfaceNormal. cbn [radii vx vy vz].
  replace (mkV3 (0 / (6378137 * 6378137)) (0 / (6378137 * 6378137)) (c * c / (c * c)))
    with (mkV3 0 0 1) by (f_equal; field; auto).
  apply v3_normalize_unit. unfold v3_lengthSq, v3_dot; cbn [vx vy vz]. ring.
Qed.

Lemma zenithAngle_pole (sunDirection : Vector3) :
  zenithAngle poleCamera sunDirection WGS84 = vz sunDirection.
Proof.
  unfold zenithAngle, poleCamera. rewrite getWorldPosition_cameraAt.
  unfold WGS84, WGS84_c. rewrite getSurfaceNormal_pole by lra.
  unfold v3_dot; cbn [vx vy vz]. ring.
Qed.

Lemma zenithAngle_origin (sunDirection : Vector3) (ell : Ellipsoid) :
  zenithAngle (exampleCamera 1 10) sunDirection ell = 0.
Proof.
  unfold zenithAngle. replace (getWorldPosition (exampleCamera 1 10)) with v3_zero
    by reflexivity.
  rewrite getSurfaceNormal_origin. unfold v3_dot, v3_zero; cbn [vx vy vz]. ring.
Qed.

(** Claim C10: the light distance is [lerp(1e6, 1e3, dot)] of the raw
    dot product of the sun direction and the ellipsoid's surface normal
    at the camera: [1e6 + (1e3 - 1e6) * dot], [1e6] at [dot = 0], [1e3]
    at [dot = 1], [1999000] at [dot = -1], and above [1e6] for every
    negative [dot]: nothing clamps it. *)
Theorem lightDistance_unclamped (camera : PerspectiveCamera) (sunDirection : Vector3)
    (ellipsoid : Ellipsoid) :
  let dot := v3_dot sunDirection (getSurfaceNormal ellipsoid (getWorldPosition camera)) in
  lightDistance camera sunDirection ellipsoid = 1e6 + (1e3 - 1e6) * dot /\
  (dot = 0 -> lightDistance camera sunDirection ellipsoid = 1e6) /\
  (dot = 1 -> lightDistance camera sunDirection ellipsoid = 1e3) /\
  (dot = -1 -> lightDistance camera sunDirection ellipsoid = 1999000) /\
  (dot < 0 -> 1e6 < lightDistance camera sunDirection ellipsoid).
Proof.
  intros dot. unfold lightDistance, lerp, zenithAngle. fold dot.
  split; [reflexivity |].
  split; [intros H; rewrite H; lra |].
  split; [intros H; rewrite H; lra |].
  split; [intros H; rewrite H; lra |].
  intros H. lra.
Qed.

Lemma lightDistance_unclamped_witness :
  lightDistance (exampleCamera 1 10) exampleSun WGS84 = 1e6 /\
  lightDistance poleCamera (mkV3 0 0 1) WGS84 = 1e3 /\
  lightDistance poleCamera (mkV3 0 0 (-1)) WGS84 = 1999000 /\
  1e6 < lightDistance poleCamera (mkV3 0 0 (-1)) WGS84.
Proof.
  split; [| split; [| split]].
  - apply (proj1 (proj2 (lightDistance_unclamped (exampleCamera 1 10) exampleSun WGS84))).
    exact (zenithAngle_origin exampleSun WGS84).
  - apply (proj1 (proj2 (proj2 (lightDistance_unclamped poleCamera (mkV3 0 0 1) WGS84)))).
    exact (zenithAngle_pole (mkV3 0 0 1)).
  - apply (proj1 (proj2 (proj2 (proj2
             (lightDistance_unclamped poleCamera (mkV3 0 0 (-1)) WGS84))))).
    exact (zenithAngle_pole (mkV3 0 0 (-1))).
  - apply (proj2 (proj2 (proj2 (proj2
             (lightDistance_unclamped poleCamera (mkV3 0 0 (-1)) WGS84))))).
    pose proof (zenithAngle_pole (mkV3 0 0 (-1))) as H. unfold zenithAngle in H.
    rewrite H. cbn [vz]. lra.
Defined.

(** ** Texel snapping *)

Lemma extract_symmetric (r n f : R) :
  r <> 0 -> extractOrthographicTuple (makeOrthographic (- r) r r (- r) n f) = (- r, r, r, - r).
Proof.
  intros Hr. unfold extractOrthographicTuple, makeOrthographic. cbn [te0 te5 te12 te13].
  f_equal; [f_equal; [f_equal |] |]; field; intro H; apply Hr; lra.
Qed.

Lemma js_round_bounds (x : R) : x - 1 / 2 < js_round x <= x + 1 / 2.
Proof.
  unfold js_round. destruct (base_Int_part (x + 1 / 2)) as [H1 H2]. lra.
Qed.

Lemma snap_nearest (x w : R) : 0 < w -> Rabs (js_round (x / w) * w - x) <= w / 2.
Proof.
  intros Hw. destruct (js_round_bounds (x / w)) as [H1 H2].
  assert (Hx : x = x / w * w) by (field; lra).
  set (u := x / w) in *. set (k := js_round u) in *.
  rewrite Hx. apply Rabs_le. split; nra.
Qed.

Lemma js_round_example (x : R) (z : Z) : IZR z - 1 / 2 <= x < IZR z + 1 / 2 -> js_round x = IZR z.
Proof.
  intros H. unfold js_round. f_equal. symmetry. apply Int_part_spec. lra.
Qed.

(** Claim C7: every cascade snaps with its own projection.  The bounds
    extracted from a cascade's projection [cascadeProjection] of radius
    [r > 0] are [(-r, r, r, -r)], the texel width and height are
    [(right - left) / cascadeSize] and [(top - bottom) / cascadeSize], and
    x and y of the center go to [Math.round(x / texel) * texel], an
    integer multiple of the texel within half a texel of [x], z kept;
    after [update], cascade [i]'s light view is built from the target
    snapped with cascade [i]'s projection matrix.  With texel size 1,
    (3.4, 7.6, z) snaps to (3, 8, z). *)
Theorem update_texel_snapping (st : CascadedShadows) (camera : PerspectiveCamera)
    (sunDirection : Vector3) (ellipsoid : Ellipsoid) :
  (forall z, snapToTexel (makeOrthographic (-512) 512 512 (-512) 0 1024) 1024 (mkV3 3.4 7.6 z)
             = mkV3 3 8 z) /\
  (forall frustum, 0 < getFrustumRadius st camera frustum -> 0 < cascadeSize st ->
     let radius := getFrustumRadius st camera frustum in
     let projection := cascadeProjection st camera frustum in
     extractOrthographicTuple projection = (- radius, radius, radius, - radius) /\
     forall center : Vector3,
       let texelWidth := (radius - - radius) / cascadeSize st in
       let texelHeight := (radius - - radius) / cascadeSize st in
       let snapped := snapToTexel projection (cascadeSize st) center in
       snapped = mkV3 (js_round (vx center / texelWidth) * texelWidth)
                      (js_round (vy center / texelHeight) * texelHeight) (vz center) /\
       (exists kx ky : Z, vx snapped = IZR kx * texelWidth /\ vy snapped = IZR ky * texelHeight) /\
       Rabs (vx snapped - vx center) <= texelWidth / 2 /\
       Rabs (vy snapped - vy center) <= texelHeight / 2) /\
  (exists st', update st camera sunDirection ellipsoid = Returned st' /\
     forall i c, nth_error (cascades st') i = Some c ->
       exists c0 frustum,
         nth_error (cascades st) i = Some c0 /\ nth_error (frusta st') i = Some frustum /\
         projectionMatrix c = cascadeProjection st camera frustum /\
         let target :=
           applyMatrix4
             (lightSpaceTarget (margin st) (cascadeSize st) (projectionMatrix c)
                (lightSpaceBox frustum (cameraToLightMatrix camera sunDirection)))
             (lightOrientationMatrix sunDirection) in
         inverseViewMatrix c
         = cascadeInverseView (inverseViewMatrix c0) target
             (lightPosition target sunDirection (lightDistance camera sunDirection ellipsoid))).
Proof.
  split; [| split].
  - intros z. unfold snapToTexel.
    assert (E : extractOrthographicTuple (makeOrthographic (-512) 512 512 (-512) 0 1024)
                = (-512, 512, 512, -512)).
    { unfold extractOrthographicTuple, makeOrthographic. cbn [te0 te5 te12 te13].
      f_equal; [f_equal; [f_equal |] |]; field. }
    rewrite E. cbv beta iota zeta.
    replace ((512 - -512) / 1024) with 1 by field. cbn [vx vy vz].
    rewrite !Rdiv_1_r, !Rmult_1_r.
    rewrite (js_round_example 3.4 3) by lra.
    rewrite (js_round_example 7.6 8) by lra. reflexivity.
  - intros frustum Hr Hs radius projection.
    assert (E : extractOrthographicTuple projection = (- radius, radius, radius, - radius)).
    { unfold projection, cascadeProjection. apply extract_symmetric. apply Rgt_not_eq. exact Hr. }
    split; [exact E |].
    intros center texelWidth texelHeight snapped.
    assert (Hw : 0 < texelWidth) by (unfold texelWidth, radius; apply Rdiv_lt_0_compat; lra).
    assert (Hsn : snapped = mkV3 (js_round (vx center / texelWidth) * texelWidth)
                               (js_round (vy center / texelHeight) * texelHeight) (vz center)).
    { unfold snapped, snapToTexel. rewrite E. reflexivity. }
    split; [exact Hsn |].
    rewrite Hsn. cbn [vx vy vz].
    split; [| split; apply snap_nearest; exact Hw].
    exists (Int_part (vx center / texelWidth + 1 / 2)),
           (Int_part (vy center / texelHeight + 1 / 2)).
    split; reflexivity.
  - destruct (update_returns st camera sunDirection ellipsoid) as [st' Hu].
    exists st'. split; [exact Hu |].
    intros i c Hc.
    destruct (update_cascade_of st camera sunDirection ellipsoid st' i c Hu Hc)
      as (c0 & frustum & Hc0 & Hfr & Hp & Hv & _).
    exists c0, frustum. split; [exact Hc0 |]. split; [exact Hfr |].
    split; [exact Hp |]. rewrite Hp. exact Hv.
Qed.

Lemma exampleFrustum_radius :
  getFrustumRadius (set_fade exampleState false) (exampleCamera 1 10) exampleFrustum = 1.
Proof.
  unfold getFrustumRadius, set_fade, exampleFrustum. cbn [fade nth ffar fnear].
  assert (D1 : v3_distanceTo v3_zero (mkV3 2 0 0) = 2).
  { unfold v3_distanceTo, v3_zero; cbn [vx vy vz].
    replace ((0 - 2) * (0 - 2) + (0 - 0) * (0 - 0) + (0 - 0) * (0 - 0)) with (2 * 2) by ring.
    apply sqrt_square. lra. }
  assert (D2 : v3_distanceTo v3_zero v3_zero = 0).
  { unfold v3_distanceTo, v3_zero; cbn [vx vy vz].
    replace ((0 - 0) * (0 - 0) + (0 - 0) * (0 - 0) + (0 - 0) * (0 - 0)) with 0 by ring.
    apply sqrt_0. }
  rewrite D1, D2. rewrite Rmax_left by lra. lra.
Qed.

Lemma update_texel_snapping_witness :
  let st := set_fade exampleState false in
  let camera := exampleCamera 1 10 in
  (snapToTexel (makeOrthographic (-512) 512 512 (-512) 0 1024) 1024 (mkV3 3.4 7.6 5)
   = mkV3 3 8 5) /\
  (0 < getFrustumRadius st camera exampleFrustum) /\ (0 < cascadeSize st) /\
  (extractOrthographicTuple (cascadeProjection st camera exampleFrustum) = (-1, 1, 1, -1)) /\
  (snapToTexel (cascadeProjection st camera exampleFrustum) (cascadeSize st) (mkV3 0.3 0.7 5)
   = mkV3 (js_round (0.3 / (2 / 1024)) * (2 / 1024))
          (js_round (0.7 / (2 / 1024)) * (2 / 1024)) 5) /\
  exists st' c c0 frustum,
    update st camera exampleSun WGS84 = Returned st' /\
    nth_error (cascades st') 0 = Some c /\
    nth_error (cascades st) 0 = Some c0 /\
    nth_error (frusta st') 0 = Some frustum /\
    projectionMatrix c = cascadeProjection st camera frustum.
Proof.
  intros st camera.
  destruct (update_texel_snapping st camera exampleSun WGS84) as (Hex & Hsnap & Hupd).
  assert (Hr : 0 < getFrustumRadius st camera exampleFrustum)
    by (unfold st, camera; rewrite exampleFrustum_radius; lra).
  assert (Hs : 0 < cascadeSize st) by (cbv; lra).
  destruct (Hsnap exampleFrustum Hr Hs) as [E Hc].
  destruct (Hc (mkV3 0.3 0.7 5)) as [Hsn _].
  assert (R1 : getFrustumRadius st camera exampleFrustum = 1) by apply exampleFrustum_radius.
  assert (C : cascadeSize st = 1024) by reflexivity.
  split; [exact (Hex 5) |]. split; [exact Hr |]. split; [exact Hs |].
  split; [rewrite E, R1; reflexivity |].
  split.
  { rewrite Hsn. cbn [vx vy vz]. rewrite R1, C.
    replace ((1 - - (1)) / 1024) with (2 / 1024) by field. reflexivity. }
  destruct Hupd as [st' [Hu H]].
  pose proof (update_cascades_length _ _ _ _ st' Hu) as Hl.
  destruct (nth_error (cascades st') 0) as [c |] eqn:Ec.
  - destruct (H 0%nat c Ec) as (c0 & frustum & Hc0 & Hfr & Hp & _).
    exists st', c, c0, frustum. split; [exact Hu |]. split; [exact Ec |].
    split; [exact Hc0 |]. split; [exact Hfr | exact Hp].
  - apply nth_error_None in Ec. change (cascadeCount st) with 1%nat in Hl. lia.
Defined.

(** ** Resizing the cascade array: object identity *)

Module CascadeStoreFacts.
Import CascadeStore.

Lemma In_firstn_l {A} (n : nat) (l : list A) x : In x (firstn n l) -> In x l.
Proof.
  intros H. rewrite <- (firstn_skipn n l). apply in_or_app. left. exact H.
Qed.

Lemma fill_spec k : forall s i,
  (i <= length (refs s))%nat -> wf s ->
  exists extra,
    refs (fill s i k) = refs s ++ extra /\
    length (refs (fill s i k)) = Nat.max (length (refs s)) (i + k) /\
    (nextLoc s <= nextLoc (fill s i k))%nat /\
    (forall l, (l < nextLoc s)%nat -> heap (fill s i k) l = heap s l) /\
    (forall l, In l extra ->
       (nextLoc s <= l)%nat /\ heap (fill s i k) l = Some newCascade) /\
    wf (fill s i k).
Proof.
  induction k as [| k IH]; intros s i Hi Hwf.
  - exists []. simpl. rewrite app_nil_r.
    split; [reflexivity |]. split; [lia |]. split; [lia |].
    split; [auto |]. split; [intros l [] | exact Hwf].
  - simpl. unfold nullishAssign.
    destruct (nth_error (refs s) i) as [l0 |] eqn:E.
    + assert (Hi' : (S i <= length (refs s))%nat).
      { assert (E' : nth_error (refs s) i <> None) by congruence.
        apply nth_error_Some in E'. lia. }
      destruct (IH s (S i) Hi' Hwf) as (extra & H1 & H2 & H3 & H4 & H5 & H6).
      exists extra. split; [exact H1 |]. split; [rewrite H2; lia |].
      split; [exact H3 |]. split; [exact H4 |]. split; [exact H5 | exact H6].
    + apply nth_error_None in E.
      assert (Hlen : i = length (refs s)) by lia. subst i.
      set (s1 := mkStore (refs s ++ [nextLoc s])
                   (fun l' => if Nat.eqb l' (nextLoc s) then Some newCascade else heap s l')
                   (S (nextLoc s))).
      destruct Hwf as [Hw1 Hw2].
      assert (Hwf1 : wf s1).
      { split.
        - intros l Hl. cbn [refs heap nextLoc s1] in *.
          apply in_app_or in Hl. destruct Hl as [Hl | [<- | []]].
          + destruct (Hw1 l Hl) as [Hlt Hh].
            destruct (Nat.eqb_spec l (nextLoc s)); [lia |]. split; [lia | exact Hh].
          + rewrite Nat.eqb_refl. split; [lia | discriminate].
        - intros l Hl. cbn [heap nextLoc s1] in *.
          destruct (Nat.eqb_spec l (nextLoc s)); [lia |]. apply Hw2. lia. }
      assert (Hl1 : (S (length (refs s)) <= length (refs s1))%nat).
      { cbn [refs s1]. rewrite length_app. simpl. lia. }
      destruct (IH s1 (S (length (refs s))) Hl1 Hwf1) as (extra & H1 & H2 & H3 & H4 & H5 & H6).
      exists (nextLoc s :: extra).
      split; [rewrite H1; cbn [refs s1]; rewrite <- app_assoc; reflexivity |].
      split; [rewrite H2; cbn [refs s1]; rewrite length_app; simpl; lia |].
      split; [cbn [nextLoc s1] in H3; lia |].
      split.
      { intros l Hl. rewrite H4 by (cbn [nextLoc s1]; lia). cbn [heap s1].
        destruct (Nat.eqb_spec l (nextLoc s)); [lia | reflexivity]. }
      split; [| exact H6].
      intros l [<- | Hl].
      * split; [lia |]. rewrite H4 by (cbn [nextLoc s1]; lia). cbn [heap s1].
        rewrite Nat.eqb_refl. reflexivity.
      * destruct (H5 l Hl) as [Hle Hh]. cbn [nextLoc s1] in Hle. split; [lia | exact Hh].
Qed.

Lemma set_cascadeCount_spec (s : Store) (N : nat) :
  wf s ->
  let s' := set_cascadeCount s N in
  length (refs s') = N /\
  (forall i, (i < Nat.min (length (refs s)) N)%nat -> nth_error (refs s') i = nth_error (refs s) i) /\
  (nextLoc s <= nextLoc s')%nat /\
  (forall l, (l < nextLoc s)%nat -> heap s' l = heap s l) /\
  (forall i l, (length (refs s) <= i)%nat -> nth_error (refs s') i = Some l ->
     (nextLoc s <= l)%nat /\ heap s' l = Some newCascade) /\
  wf s'.
Proof.
  intros Hwf s'. unfold s', set_cascadeCount.
  destruct (Nat.eqb_spec N (length (refs s))) as [E | Hne].
  { cbv iota. split; [exact (eq_sym E) |]. split; [auto |]. split; [apply Nat.le_refl |]. split; [auto |].
    split; [| exact Hwf].
    intros i l Hi Hl. assert (Hl' : nth_error (refs s) i <> None) by congruence.
    apply nth_error_Some in Hl'. lia. }
  destruct (fill_spec N s 0 ltac:(lia) Hwf) as (extra & H1 & H2 & H3 & H4 & H5 & H6).
  set (f := fill s 0 N) in *. cbn [refs heap nextLoc].
  split; [rewrite length_firstn, H2; lia |].
  split.
  { intros i Hi. rewrite nth_error_firstn.
    destruct (Nat.ltb_spec i N); [| lia].
    rewrite H1, nth_error_app1 by lia. reflexivity. }
  split; [exact H3 |].
  split; [exact H4 |].
  split.
  { intros i l Hi Hl. rewrite nth_error_firstn in Hl.
    destruct (Nat.ltb i N); [| discriminate].
    rewrite H1, nth_error_app2 in Hl by lia.
    apply nth_error_In in Hl. apply H5, Hl. }
  destruct H6 as [Hw1 Hw2]. split.
  - intros l Hl. apply Hw1. apply (In_firstn_l N). exact Hl.
  - exact Hw2.
Qed.

(** Claim C5: [cascadeCount = N] on a well-formed store leaves exactly [N]
    references; the first [min(M, N)] are the same locations as before
    and no location allocated before is written, so the surviving cascade
    objects are the same objects with the same contents; every reference
    from [M] on is a new location holding a fresh cascade: a zero interval
    and seven [new Matrix4()], which are identities.  Resizing back to [M]
    keeps the first [min(M, N)] references and their contents (4 to 2 to
    4 keeps the first 2). *)
Theorem set_cascadeCount_identity_stable (s : Store) (N : nat) (Hwf : wf s) :
  let M := length (refs s) in
  let s' := set_cascadeCount s N in
  length (refs s') = N /\
  (forall i, (i < Nat.min M N)%nat -> nth_error (refs s') i = nth_error (refs s) i) /\
  (forall l, (l < nextLoc s)%nat -> heap s' l = heap s l) /\
  (forall i l, (M <= i)%nat -> nth_error (refs s') i = Some l ->
     (nextLoc s <= l)%nat /\ heap s' l = Some newCascade /\
     newCascade = mkCascade (mkV2 0 0) m4_identity m4_identity m4_identity m4_identity
                            m4_identity m4_identity) /\
  let s'' := set_cascadeCount s' M in
  length (refs s'') = M /\
  (forall i, (i < Nat.min M N)%nat -> nth_error (refs s'') i = nth_error (refs s) i) /\
  (forall l, (l < nextLoc s)%nat -> heap s'' l = heap s l).
Proof.
  intros M s'.
  destruct (set_cascadeCount_spec s N Hwf) as (H1 & H2 & H3 & H4 & H5 & H6).
  fold s' in H1, H2, H3, H4, H5, H6.
  split; [exact H1 |]. split; [exact H2 |]. split; [exact H4 |].
  split.
  { intros i l Hi Hl. destruct (H5 i l Hi Hl) as [Ha Hb]. repeat split; assumption. }
  intros s''.
  destruct (set_cascadeCount_spec s' M H6) as (G1 & G2 & G3 & G4 & G5 & G6).
  fold s'' in G1, G2, G3, G4, G5, G6.
  split; [exact G1 |].
  split.
  { intros i Hi. rewrite G2 by (rewrite H1; lia). apply H2. exact Hi. }
  intros l Hl. rewrite G4 by lia. apply H4. exact Hl.
Qed.

Lemma wf_empty : wf empty.
Proof. split; [intros l [] | reflexivity]. Qed.

Lemma set_cascadeCount_identity_stable_witness :
  wf empty /\ length (refs (set_cascadeCount empty 4)) = 4%nat /\
  nth_error (refs (set_cascadeCount (set_cascadeCount empty 4) 2)) 1
  = nth_error (refs (set_cascadeCount empty 4)) 1.
Proof.
  split; [exact wf_empty |].
  destruct (set_cascadeCount_identity_stable empty 4 wf_empty) as (H1 & _ & _ & _ & _).
  split; [exact H1 |].
  destruct (set_cascadeCount_identity_stable (set_cascadeCount empty 4) 2
              (proj2 (proj2 (proj2 (proj2 (proj2 (set_cascadeCount_spec empty 4 wf_empty)))))))
    as (_ & G2 & _).
  apply G2. vm_compute. lia.
Defined.

(** Claim C5 does not hold as stated: the matrices of a fresh cascade are
    not zeroed; [new Matrix4()] is the identity. *)
Lemma set_cascadeCount_fresh_not_zeroed :
  exists l c,
    nth_error (refs (set_cascadeCount empty 1)) 0 = Some l /\
    heap (set_cascadeCount empty 1) l = Some c /\
    projectionMatrix c <> m4_zero /\ te0 (projectionMatrix c) = 1.
Proof.
  exists 0%nat, newCascade. split; [reflexivity |]. split; [reflexivity |].
  split; [| reflexivity].
  intros H. apply (f_equal te0) in H. cbn in H. lra.
Qed.

End CascadeStoreFacts.

(** ** Configuration setters *)

Lemma update_frusta st camera sunDirection ellipsoid s :
  update st camera sunDirection ellipsoid = Returned s ->
  frusta s = frusta (updateIntervals st camera).
Proof.
  rewrite update_unfold. cbv zeta. intros H. injection H as <-. reflexivity.
Qed.

Lemma fillCascades_app k : forall l i,
  (i <= length l)%nat ->
  fillCascades l i k = l ++ repeat newCascade (i + k - length l).
Proof.
  induction k as [| k IH]; intros l i Hi; cbn [fillCascades].
  - replace (i + 0 - length l)%nat with 0%nat by lia. rewrite app_nil_r. reflexivity.
  - unfold nullishAssign.
    destruct (nth_error l i) eqn:E.
    + assert (i < length l)%nat by (apply nth_error_Some; congruence).
      rewrite IH by lia. f_equal. f_equal. lia.
    + apply nth_error_None in E.
      rewrite IH by (rewrite length_app; cbn; lia).
      rewrite <- app_assoc. f_equal. rewrite length_app; cbn [length].
      replace (i + S k - length l)%nat with (S (S i + k - (length l + 1)))%nat by lia.
      reflexivity.
Qed.

Lemma set_cascadeCount_closed (st : CascadedShadows) (value : nat) :
  set_cascadeCount st value
  = with_cascades st (firstn value (cascades st)
                      ++ repeat newCascade (value - cascadeCount st)).
Proof.
  unfold set_cascadeCount. destruct (Nat.eqb_spec value (cascadeCount st)) as [H | H].
  - rewrite H. unfold cascadeCount. rewrite firstn_all, Nat.sub_diag, app_nil_r.
    destruct st; reflexivity.
  - f_equal. rewrite fillCascades_app by lia. cbn [Nat.add].
    rewrite firstn_app. unfold cascadeCount. f_equal.
    rewrite firstn_all2; [reflexivity |]. rewrite repeat_length. lia.
Qed.

Lemma set_cascadeCount_count (st : CascadedShadows) (value : nat) :
  cascadeCount (set_cascadeCount st value) = value.
Proof.
  unfold set_cascadeCount. destruct (Nat.eqb_spec value (cascadeCount st)) as [H | H].
  - symmetry. exact H.
  - unfold cascadeCount, with_cascades; cbn [cascades].
    rewrite fillCascades_app by lia. rewrite length_firstn, length_app, repeat_length. lia.
Qed.

Lemma update_splits st camera sunDirection ellipsoid s :
  update st camera sunDirection ellipsoid = Returned s ->
  splits s = splits (updateIntervals st camera).
Proof.
  rewrite update_unfold. cbv zeta. intros H. injection H as <-. reflexivity.
Qed.


Lemma update_config st camera sunDirection ellipsoid s :
  update st camera sunDirection ellipsoid = Returned s ->
  cascadeSize s = cascadeSize st /\ cs_far s = cs_far st /\ mode s = mode st /\
  lambda s = lambda st /\ margin s = margin st /\ fade s = fade st.
Proof.
  rewrite update_unfold. cbv zeta. intros H. injection H as <-.
  repeat split; reflexivity.
Qed.



(** ** Placing the light *)

Lemma v3_eta (v : Vector3) : mkV3 (vx v) (vy v) (vz v) = v.
Proof. destruct v; reflexivity. Qed.

Lemma lengthSq_scaled (v : Vector3) (k : R) :
  v3_lengthSq (v3_multiplyScalar v k) = k * k * v3_lengthSq v.
Proof. unfold v3_lengthSq, v3_dot, v3_multiplyScalar; cbn [vx vy vz]. ring. Qed.

Lemma lengthSq_cross_neg (u v : Vector3) :
  v3_lengthSq (v3_cross u (v3_multiplyScalar v (-1))) = v3_lengthSq (v3_cross u v).
Proof. unfold v3_lengthSq, v3_dot, v3_cross, v3_multiplyScalar; cbn [vx vy vz]. ring. Qed.

Lemma sub_lightPosition (target sunDirection : Vector3) (d : R) :
  v3_sub target (lightPosition target sunDirection d)
  = v3_multiplyScalar (v3_multiplyScalar sunDirection (-1)) d.
Proof.
  unfold v3_sub, lightPosition, v3_add, v3_multiplyScalar; cbn [vx vy vz]. f_equal; ring.
Qed.

Lemma sub_lightPosition_rev (target sunDirection : Vector3) (d : R) :
  v3_sub (lightPosition target sunDirection d) target = v3_multiplyScalar sunDirection d.
Proof.
  unfold v3_sub, lightPosition, v3_add, v3_multiplyScalar; cbn [vx vy vz]. f_equal; ring.
Qed.

(** [lookAt] when [eye - target] is a positive multiple of a unit vector
    [dir] not parallel to [up]: the z column is [dir]. *)
Lemma lookAt_dir (m : Matrix4) (eye target up dir : Vector3) (d : R) :
  v3_sub eye target = v3_multiplyScalar dir d -> v3_lengthSq dir = 1 -> 0 < d ->
  v3_lengthSq (v3_cross up dir) <> 0 ->
  lookAt m eye target up
  = (let x := v3_normalize (v3_cross up dir) in
     let y := v3_cross dir x in
     mkM4 (vx x) (vy x) (vz x) (te3 m)
          (vx y) (vy y) (vz y) (te7 m)
          (vx dir) (vy dir) (vz dir) (te11 m)
          (te12 m) (te13 m) (te14 m) (te15 m)).
Proof.
  intros Hs Hu Hd Hx. unfold lookAt. cbv zeta. rewrite Hs.
  assert (Hl : v3_lengthSq (v3_multiplyScalar dir d) <> 0).
  { rewrite lengthSq_scaled, Hu. nra. }
  destruct (Req_EM_T (v3_lengthSq (v3_multiplyScalar dir d)) 0) as [E | _]; [contradiction |].
  rewrite (v3_normalize_scaled dir d Hu Hd).
  destruct (Req_EM_T (v3_lengthSq (v3_cross up dir)) 0) as [E | _]; [contradiction |].
  reflexivity.
Qed.

Lemma lookAt_light (m : Matrix4) (target sunDirection : Vector3) (d : R) :
  v3_lengthSq sunDirection = 1 -> 0 < d ->
  v3_lengthSq (v3_cross DEFAULT_UP sunDirection) <> 0 ->
  lookAt m target (lightPosition target sunDirection d) DEFAULT_UP
  = (let z := v3_multiplyScalar sunDirection (-1) in
     let x := v3_normalize (v3_cross DEFAULT_UP z) in
     let y := v3_cross z x in
     mkM4 (vx x) (vy x) (vz x) (te3 m)
          (vx y) (vy y) (vz y) (te7 m)
          (vx z) (vy z) (vz z) (te11 m)
          (te12 m) (te13 m) (te14 m) (te15 m)).
Proof.
  intros Hu Hd Hx. apply (lookAt_dir m _ _ _ _ d).
  - apply sub_lightPosition.
  - rewrite lengthSq_scaled, Hu. ring.
  - exact Hd.
  - rewrite lengthSq_cross_neg. exact Hx.
Qed.

Lemma snapToTexel_z (projection : Matrix4) (size : R) (center : Vector3) :
  vz (snapToTexel projection size center) = vz center.
Proof.
  unfold snapToTexel. destruct (extractOrthographicTuple projection) as [[[a b] c] e].
  reflexivity.
Qed.

(** Claim C3, as the code has it: after [update], for every cascade, the
    light-space target has z = the box's max z + margin; the distance is
    [lerp(1e6, 1e3, dot(sunDirection, normal at the camera))]; the light
    position is [target + sunDirection * distance]; the inverse view
    matrix is [lookAt(target, position, up)] (eye = target, target =
    position) with translation [position], so for a unit sun direction
    not parallel to [up] and a positive distance its z axis is
    [-sunDirection]; the view matrix is its inverse. *)
Theorem update_light_placement (st : CascadedShadows) (camera : PerspectiveCamera)
    (sunDirection : Vector3) (ellipsoid : Ellipsoid) :
  exists st', update st camera sunDirection ellipsoid = Returned st' /\
  forall i c, nth_error (cascades st') i = Some c ->
  exists c0 frustum,
    nth_error (cascades st) i = Some c0 /\ nth_error (frusta st') i = Some frustum /\
    let bbox := lightSpaceBox frustum (cameraToLightMatrix camera sunDirection) in
    let t := lightSpaceTarget (margin st) (cascadeSize st) (projectionMatrix c) bbox in
    let target := applyMatrix4 t (lightOrientationMatrix sunDirection) in
    let distance := lightDistance camera sunDirection ellipsoid in
    let position := lightPosition target sunDirection distance in
    vz t = vz (box_max bbox) + margin st /\
    distance = lerp 1e6 1e3
                 (v3_dot sunDirection (getSurfaceNormal ellipsoid (getWorldPosition camera))) /\
    position = v3_add target (v3_multiplyScalar sunDirection distance) /\
    inverseViewMatrix c
    = setPosition (lookAt (inverseViewMatrix c0) target position DEFAULT_UP) position /\
    mkV3 (te12 (inverseViewMatrix c)) (te13 (inverseViewMatrix c)) (te14 (inverseViewMatrix c))
    = position /\
    viewMatrix c = invert (inverseViewMatrix c) /\
    (v3_lengthSq sunDirection = 1 -> 0 < distance ->
     v3_lengthSq (v3_cross DEFAULT_UP sunDirection) <> 0 ->
     mkV3 (te8 (inverseViewMatrix c)) (te9 (inverseViewMatrix c)) (te10 (inverseViewMatrix c))
     = v3_multiplyScalar sunDirection (-1)).
Proof.
  destruct (update_returns st camera sunDirection ellipsoid) as [st' Hu].
  exists st'. split; [exact Hu |].
  intros i c Hc.
  destruct (update_cascade_of st camera sunDirection ellipsoid st' i c Hu Hc)
    as (c0 & frustum & Hc0 & Hfr & Hp & Hv & Hw).
  exists c0, frustum. split; [exact Hc0 |]. split; [exact Hfr |].
  rewrite Hp. cbv zeta in Hv |- *. unfold cascadeInverseView in Hv.
  split.
  { unfold lightSpaceTarget. rewrite snapToTexel_z. reflexivity. }
  split; [reflexivity |].
  split.
  { unfold lightPosition, v3_add, v3_multiplyScalar; cbn [vx vy vz]. f_equal; ring. }
  split; [exact Hv |].
  split; [rewrite Hv; apply v3_eta |].
  split; [exact Hw |].
  intros Hs Hd Hx. rewrite Hv. unfold setPosition. cbn [te8 te9 te10].
  rewrite lookAt_light by assumption. cbv zeta. cbn [te8 te9 te10]. apply v3_eta.
Qed.

Lemma exampleSun_unit : v3_lengthSq exampleSun = 1.
Proof. unfold v3_lengthSq, v3_dot, exampleSun; cbn [vx vy vz]. ring. Qed.

Lemma exampleSun_not_up : v3_lengthSq (v3_cross DEFAULT_UP exampleSun) <> 0.
Proof.
  unfold v3_lengthSq, v3_dot, v3_cross, DEFAULT_UP, exampleSun; cbn [vx vy vz]. lra.
Qed.

Lemma lightDistance_origin :
  lightDistance (exampleCamera 1 10) exampleSun WGS84 = 1e6.
Proof. unfold lightDistance. rewrite zenithAngle_origin. unfold lerp. lra. Qed.

Ltac invert_te0 :=
  unfold invert; cbv zeta;
  cbn [te0 te1 te2 te3 te4 te5 te6 te7 te8 te9 te10 te11 te12 te13 te14 te15
       setPosition m4_identity vx vy vz v3_cross v3_multiplyScalar lightPosition v3_add
       exampleSun DEFAULT_UP];
  match goal with
  | |- context [Req_dec_T ?D 0] =>
      let HD := fresh "HD" in
      assert (HD : D = 1) by ring;
      destruct (Req_dec_T D 0) as [E | _];
      [ lra | cbn [te0]; rewrite HD; field ]
  end.

(** The light of the code looks away from the target: [lookAt(target,
    position)] with the sun on [+z] turns x to [-x]. *)
Lemma code_view_te0 (target : Vector3) (d : R) :
  0 < d ->
  te0 (invert (cascadeInverseView m4_identity target (lightPosition target exampleSun d))) = -1.
Proof.
  intros Hd. unfold cascadeInverseView.
  rewrite (lookAt_light m4_identity target exampleSun d exampleSun_unit Hd exampleSun_not_up).
  cbv zeta.
  rewrite (v3_normalize_unit (v3_cross DEFAULT_UP (v3_multiplyScalar exampleSun (-1)))).
  2: { unfold v3_lengthSq, v3_dot, v3_cross, v3_multiplyScalar, DEFAULT_UP, exampleSun;
       cbn [vx vy vz]. ring. }
  invert_te0.
Qed.

(** The look-at view of a camera at [position] turned toward [target]. *)
Lemma lookAt_view_te0 (target : Vector3) (d : R) :
  0 < d ->
  te0 (lookAtViewMatrix (lightPosition target exampleSun d) target DEFAULT_UP) = 1.
Proof.
  intros Hd. unfold lookAtViewMatrix.
  rewrite (lookAt_dir m4_identity _ _ DEFAULT_UP exampleSun d
             (sub_lightPosition_rev target exampleSun d) exampleSun_unit Hd exampleSun_not_up).
  cbv zeta.
  rewrite (v3_normalize_unit (v3_cross DEFAULT_UP exampleSun)).
  2: { unfold v3_lengthSq, v3_dot, v3_cross, DEFAULT_UP, exampleSun; cbn [vx vy vz]. ring. }
  invert_te0.
Qed.

Lemma update_light_placement_witness :
  exists st' c c0 frustum,
    update exampleState (exampleCamera 1 10) exampleSun WGS84 = Returned st' /\
    nth_error (cascades st') 0 = Some c /\
    nth_error (cascades exampleState) 0 = Some c0 /\
    nth_error (frusta st') 0 = Some frustum /\
    v3_lengthSq exampleSun = 1 /\
    0 < lightDistance (exampleCamera 1 10) exampleSun WGS84 /\
    v3_lengthSq (v3_cross DEFAULT_UP exampleSun) <> 0 /\
    mkV3 (te8 (inverseViewMatrix c)) (te9 (inverseViewMatrix c)) (te10 (inverseViewMatrix c))
    = v3_multiplyScalar exampleSun (-1).
Proof.
  destruct (update_light_placement exampleState (exampleCamera 1 10) exampleSun WGS84)
    as [st' [Hu H]].
  pose proof (update_cascades_length _ _ _ _ st' Hu) as Hl.
  destruct (nth_error (cascades st') 0) as [c |] eqn:Ec.
  - destruct (H 0%nat c Ec) as (c0 & frustum & Hc0 & Hfr & _ & _ & _ & _ & _ & _ & Hz).
    assert (Hd : 0 < lightDistance (exampleCamera 1 10) exampleSun WGS84)
      by (rewrite lightDistance_origin; lra).
    exists st', c, c0, frustum.
    split; [exact Hu |]. split; [exact Ec |]. split; [exact Hc0 |]. split; [exact Hfr |].
    split; [exact exampleSun_unit |]. split; [exact Hd |].
    split; [exact exampleSun_not_up |].
    exact (Hz exampleSun_unit Hd exampleSun_not_up).
  - apply nth_error_None in Ec. change (cascadeCount exampleState) with 1%nat in Hl. lia.
Defined.

(** Claim C3 fails in the code: with the sun on [+z] and the camera at
    the origin, the view matrix [update] leaves in the cascade is not the
    look-at view from the light position toward the target, because
    [lookAt(center, position)] puts the eye at the target; their first
    entries are [-1] and [1]. *)
Lemma update_view_not_lookAt_counterexample :
  exists st' c target position,
    update exampleState (exampleCamera 1 10) exampleSun WGS84 = Returned st' /\
    nth_error (cascades st') 0 = Some c /\
    position = lightPosition target exampleSun
                 (lightDistance (exampleCamera 1 10) exampleSun WGS84) /\
    inverseViewMatrix c = cascadeInverseView m4_identity target position /\
    te0 (viewMatrix c) = -1 /\
    te0 (lookAtViewMatrix position target DEFAULT_UP) = 1 /\
    viewMatrix c <> lookAtViewMatrix position target DEFAULT_UP.
Proof.
  destruct (update_returns exampleState (exampleCamera 1 10) exampleSun WGS84) as [st' Hu].
  pose proof (update_cascades_length _ _ _ _ st' Hu) as Hl.
  destruct (nth_error (cascades st') 0) as [c |] eqn:Ec.
  2: { apply nth_error_None in Ec. change (cascadeCount exampleState) with 1%nat in Hl. lia. }
  destruct (update_cascade_of _ _ _ _ st' 0 c Hu Ec)
    as (c0 & frustum & Hc0 & _ & _ & Hv & Hw).
  cbn in Hc0. injection Hc0 as <-. cbv zeta in Hv.
  match type of Hv with
  | _ = cascadeInverseView _ ?T (lightPosition ?T _ _) => set (target := T) in Hv
  end.
  set (d := lightDistance (exampleCamera 1 10) exampleSun WGS84) in Hv.
  assert (Hd : 0 < d) by (unfold d; rewrite lightDistance_origin; lra).
  assert (Ed : d = lightDistance (exampleCamera 1 10) exampleSun WGS84) by reflexivity.
  clearbody target d.
  exists st', c, target, (lightPosition target exampleSun d).
  split; [exact Hu |]. split; [exact Ec |]. split; [rewrite Ed; reflexivity |].
  split; [exact Hv |].
  assert (H1 : te0 (viewMatrix c) = -1) by (rewrite Hw, Hv; apply code_view_te0, Hd).
  assert (H2 : te0 (lookAtViewMatrix (lightPosition target exampleSun d) target DEFAULT_UP) = 1)
    by (apply lookAt_view_te0, Hd).
  split; [exact H1 |]. split; [exact H2 |].
  intros H. rewrite H in H1. lra.
Qed.

(** * More of the code: properties *)

(** ** Matrix algebra of three.js *)

Lemma multiplyMatrices_formula (a b : Matrix4) :
  multiplyMatrices a b =
  mkM4 (te0 a * te0 b + te4 a * te1 b + te8 a * te2 b + te12 a * te3 b)
       (te1 a * te0 b + te5 a * te1 b + te9 a * te2 b + te13 a * te3 b)
       (te2 a * te0 b + te6 a * te1 b + te10 a * te2 b + te14 a * te3 b)
       (te3 a * te0 b + te7 a * te1 b + te11 a * te2 b + te15 a * te3 b)
       (te0 a * te4 b + te4 a * te5 b + te8 a * te6 b + te12 a * te7 b)
       (te1 a * te4 b + te5 a * te5 b + te9 a * te6 b + te13 a * te7 b)
       (te2 a * te4 b + te6 a * te5 b + te10 a * te6 b + te14 a * te7 b)
       (te3 a * te4 b + te7 a * te5 b + te11 a * te6 b + te15 a * te7 b)
       (te0 a * te8 b + te4 a * te9 b + te8 a * te10 b + te12 a * te11 b)
       (te1 a * te8 b + te5 a * te9 b + te9 a * te10 b + te13 a * te11 b)
       (te2 a * te8 b + te6 a * te9 b + te10 a * te10 b + te14 a * te11 b)
       (te3 a * te8 b + te7 a * te9 b + te11 a * te10 b + te15 a * te11 b)
       (te0 a * te12 b + te4 a * te13 b + te8 a * te14 b + te12 a * te15 b)
       (te1 a * te12 b + te5 a * te13 b + te9 a * te14 b + te13 a * te15 b)
       (te2 a * te12 b + te6 a * te13 b + te10 a * te14 b + te14 a * te15 b)
       (te3 a * te12 b + te7 a * te13 b + te11 a * te14 b + te15 a * te15 b).
Proof. reflexivity. Qed.


Lemma mkM4_eq (a0 a1 a2 a3 a4 a5 a6 a7 a8 a9 a10 a11 a12 a13 a14 a15
               b0 b1 b2 b3 b4 b5 b6 b7 b8 b9 b10 b11 b12 b13 b14 b15 : R) :
  a0 = b0 -> a1 = b1 -> a2 = b2 -> a3 = b3 -> a4 = b4 -> a5 = b5 -> a6 = b6 -> a7 = b7 ->
  a8 = b8 -> a9 = b9 -> a10 = b10 -> a11 = b11 -> a12 = b12 -> a13 = b13 -> a14 = b14 ->
  a15 = b15 ->
  mkM4 a0 a1 a2 a3 a4 a5 a6 a7 a8 a9 a10 a11 a12 a13 a14 a15
  = mkM4 b0 b1 b2 b3 b4 b5 b6 b7 b8 b9 b10 b11 b12 b13 b14 b15.
Proof. intros; subst; reflexivity. Qed.

Lemma multiplyMatrices_assoc (a b c : Matrix4) :
  multiplyMatrices (multiplyMatrices a b) c = multiplyMatrices a (multiplyMatrices b c).
Proof.
  rewrite (multiplyMatrices_formula (multiplyMatrices a b) c),
    (multiplyMatrices_formula a (multiplyMatrices b c)),
    (multiplyMatrices_formula a b), (multiplyMatrices_formula b c).
  cbn [te0 te1 te2 te3 te4 te5 te6 te7 te8 te9 te10 te11 te12 te13 te14 te15]. 
  apply mkM4_eq.  all: ring.
Qed.

Ltac solve_inverse_entry D d Hd :=
  first [ ring | (transitivity (D * d); [ring | exact Hd]) ].

Lemma invert_right (m : Matrix4) :
  invertDeterminant m <> 0 -> multiplyMatrices m (invert m) = m4_identity.
Proof.
  intros H. rewrite multiplyMatrices_formula.
  destruct m. unfold invertDeterminant in H. unfold invert, m4_identity.  cbn [te0 te1 te2 te3 te4 te5 te6 te7 te8 te9 te10 te11 te12 te13 te14 te15] in H |- *.
  destruct (Req_dec_T _ 0) as [E | _]; [contradiction |].
  cbn [te0 te1 te2 te3 te4 te5 te6 te7 te8 te9 te10 te11 te12 te13 te14 te15].
  match goal with |- context [1 / ?D] =>
    set (d := 1 / D); assert (Hd : D * d = 1) by (unfold d; field; exact H);
    clearbody d; apply mkM4_eq; solve_inverse_entry D d Hd end.
Qed.


Lemma invert_left (m : Matrix4) :
  invertDeterminant m <> 0 -> multiplyMatrices (invert m) m = m4_identity.
Proof.
  intros H. rewrite multiplyMatrices_formula.
  destruct m. unfold invertDeterminant in H. unfold invert, m4_identity.
  cbn [te0 te1 te2 te3 te4 te5 te6 te7 te8 te9 te10 te11 te12 te13 te14 te15] in H |- *.
  destruct (Req_dec_T _ 0) as [E | _]; [contradiction |].
  cbn [te0 te1 te2 te3 te4 te5 te6 te7 te8 te9 te10 te11 te12 te13 te14 te15].
  match goal with |- context [1 / ?D] =>
    set (d := 1 / D); assert (Hd : D * d = 1) by (unfold d; field; exact H);
    clearbody d; apply mkM4_eq; solve_inverse_entry D d Hd end.
Qed.

Lemma multiplyMatrices_identity_l (m : Matrix4) : multiplyMatrices m4_identity m = m.
Proof.
  rewrite multiplyMatrices_formula. destruct m. unfold m4_identity.
  cbn [te0 te1 te2 te3 te4 te5 te6 te7 te8 te9 te10 te11 te12 te13 te14 te15].
  apply mkM4_eq; ring.
Qed.

Lemma multiplyMatrices_identity_r (m : Matrix4) : multiplyMatrices m m4_identity = m.
Proof.
  rewrite multiplyMatrices_formula. destruct m. unfold m4_identity.
  cbn [te0 te1 te2 te3 te4 te5 te6 te7 te8 te9 te10 te11 te12 te13 te14 te15].
  apply mkM4_eq; ring.
Qed.




Lemma multiplyMatrices_zero_r (m : Matrix4) : multiplyMatrices m m4_zero = m4_zero.
Proof.
  rewrite multiplyMatrices_formula. unfold m4_zero.
  cbn [te0 te1 te2 te3 te4 te5 te6 te7 te8 te9 te10 te11 te12 te13 te14 te15].
  apply mkM4_eq; ring.
Qed.

Lemma invert_singular (m : Matrix4) : invertDeterminant m = 0 -> invert m = m4_zero.
Proof.
  intros H. destruct m. unfold invertDeterminant in H. unfold invert.
  cbn [te0 te1 te2 te3 te4 te5 te6 te7 te8 te9 te10 te11 te12 te13 te14 te15] in H |- *.
  destruct (Req_dec_T _ 0) as [_ | E]; [reflexivity | contradiction].
Qed.

(** [(a * b) * (c * d)] is the identity when [b * c] and [a * d] are. *)
Lemma product_inverse (a b c d : Matrix4) :
  multiplyMatrices b c = m4_identity -> multiplyMatrices a d = m4_identity ->
  multiplyMatrices (multiplyMatrices a b) (multiplyMatrices c d) = m4_identity.
Proof.
  intros Hbc Had.
  rewrite multiplyMatrices_assoc, <- (multiplyMatrices_assoc b c d), Hbc,
    multiplyMatrices_identity_l.
  exact Had.
Qed.

Lemma invertDeterminant_identity : invertDeterminant m4_identity = 1.
Proof. unfold invertDeterminant, m4_identity; cbn [te0 te1 te2 te3 te4 te5 te6 te7 te8 te9 te10 te11 te12 te13 te14 te15]. ring. Qed.

(** The derived matrices of a cascade (lines 286-289): when the
    projection and the inverse view have a nonzero determinant, the
    projection and its inverse, the view and the inverse view, and
    [matrix] and [inverseMatrix] are each other's two-sided inverses;
    when the projection is singular, three.js's [invert] gives the zero
    matrix, and [inverseProjectionMatrix] and [inverseMatrix] are zero. *)
Theorem finishCascade_inverses (c : Cascade) :
  let c' := finishCascade c in
  (invertDeterminant (projectionMatrix c) <> 0 ->
   invertDeterminant (inverseViewMatrix c) <> 0 ->
   multiplyMatrices (projectionMatrix c') (inverseProjectionMatrix c') = m4_identity /\
   multiplyMatrices (inverseProjectionMatrix c') (projectionMatrix c') = m4_identity /\
   multiplyMatrices (viewMatrix c') (inverseViewMatrix c') = m4_identity /\
   multiplyMatrices (inverseViewMatrix c') (viewMatrix c') = m4_identity /\
   multiplyMatrices (matrix c') (inverseMatrix c') = m4_identity /\
   multiplyMatrices (inverseMatrix c') (matrix c') = m4_identity) /\
  (invertDeterminant (projectionMatrix c) = 0 ->
   inverseProjectionMatrix c' = m4_zero /\ inverseMatrix c' = m4_zero).
Proof.
  intros c'. unfold c', finishCascade; cbv zeta.
  cbn [interval matrix inverseMatrix projectionMatrix inverseProjectionMatrix
       viewMatrix inverseViewMatrix].
  split.
  - intros Hp Hv.
    pose proof (invert_right _ Hp) as Hp1. pose proof (invert_left _ Hp) as Hp2.
    pose proof (invert_right _ Hv) as Hv1. pose proof (invert_left _ Hv) as Hv2.
    split; [exact Hp1 |]. split; [exact Hp2 |].
    split; [exact Hv2 |]. split; [exact Hv1 |].
    split; apply product_inverse; assumption.
  - intros Hp. rewrite (invert_singular _ Hp), multiplyMatrices_zero_r.
    split; reflexivity.
Qed.

Lemma finishCascade_inverses_witness :
  let c' := finishCascade newCascade in
  multiplyMatrices (matrix c') (inverseMatrix c') = m4_identity /\
  (inverseMatrix (finishCascade (set_projectionMatrix newCascade m4_zero)) = m4_zero).
Proof.
  split.
  - assert (H1 : invertDeterminant (projectionMatrix newCascade) <> 0)
      by (cbn [projectionMatrix newCascade]; rewrite invertDeterminant_identity; lra).
    assert (H2 : invertDeterminant (inverseViewMatrix newCascade) <> 0)
      by (cbn [inverseViewMatrix newCascade]; rewrite invertDeterminant_identity; lra).
    exact (proj1 (proj2 (proj2 (proj2 (proj2
             (proj1 (finishCascade_inverses newCascade) H1 H2)))))).
  - assert (H : invertDeterminant (projectionMatrix (set_projectionMatrix newCascade m4_zero)) = 0)
      by (cbn [projectionMatrix set_projectionMatrix]; unfold invertDeterminant, m4_zero;
          cbn [te0 te1 te2 te3 te4 te5 te6 te7 te8 te9 te10 te11 te12 te13 te14 te15]; ring).
    exact (proj2 (proj2 (finishCascade_inverses (set_projectionMatrix newCascade m4_zero)) H)).
Defined.

(** ** The light frame *)

Lemma lengthSq_nonneg (v : Vector3) : 0 <= v3_lengthSq v.
Proof. unfold v3_lengthSq, v3_dot. nra. Qed.

Lemma v3_normalize_nonzero (v : Vector3) :
  v3_lengthSq v <> 0 -> v3_normalize v = v3_multiplyScalar v (1 / sqrt (v3_lengthSq v)).
Proof.
  intros H. unfold v3_normalize, v3_length; cbv zeta.
  destruct (Req_EM_T (sqrt (v3_lengthSq v)) 0) as [E | _]; [| reflexivity].
  exfalso. apply H. apply sqrt_eq_0; [apply lengthSq_nonneg | exact E].
Qed.

Lemma v3_normalize_length (v : Vector3) :
  v3_lengthSq v <> 0 -> v3_lengthSq (v3_normalize v) = 1.
Proof.
  intros H. rewrite v3_normalize_nonzero, lengthSq_scaled by exact H.
  pose proof (lengthSq_nonneg v) as H0.
  pose proof (sqrt_sqrt (v3_lengthSq v) H0) as Hs.
  assert (Hn : sqrt (v3_lengthSq v) <> 0).
  { intros E. rewrite E in Hs. apply H. lra. }
  set (s := sqrt (v3_lengthSq v)) in *. rewrite <- Hs. field. exact Hn.
Qed.

(** The frame [lookAt] builds from a unit z axis: x = normalize(up x z),
    y = z x x. *)
Lemma lookAt_frame (up z : Vector3) :
  v3_lengthSq z = 1 -> v3_lengthSq (v3_cross up z) <> 0 ->
  let x := v3_normalize (v3_cross up z) in
  let y := v3_cross z x in
  v3_dot x x = 1 /\ v3_dot y y = 1 /\ v3_dot x y = 0 /\ v3_dot x z = 0 /\
  v3_dot y z = 0 /\ v3_cross x y = z.
Proof.
  intros Hz Hv x y.
  assert (Hxx : v3_dot x x = 1) by exact (v3_normalize_length _ Hv).
  assert (Hxz : v3_dot x z = 0).
  { unfold x. rewrite v3_normalize_nonzero by exact Hv.
    set (k := 1 / sqrt (v3_lengthSq (v3_cross up z))).
    unfold v3_dot, v3_multiplyScalar, v3_cross; cbn [vx vy vz]. ring. }
  unfold v3_lengthSq in Hz.
  clearbody x. unfold y.
  split; [exact Hxx |].
  split.
  { transitivity (v3_dot z z * v3_dot x x - v3_dot x z * v3_dot x z).
    - unfold v3_dot, v3_cross; cbn [vx vy vz]. ring.
    - rewrite Hz, Hxx, Hxz. ring. }
  split; [unfold v3_dot, v3_cross; cbn [vx vy vz]; ring |].
  split; [exact Hxz |].
  split; [unfold v3_dot, v3_cross; cbn [vx vy vz]; ring |].
  destruct z as [z0 z1 z2]. unfold v3_dot in Hxx, Hxz.
  unfold v3_cross; cbn [vx vy vz] in *. f_equal.
  - transitivity (z0 * (vx x * vx x + vy x * vy x + vz x * vz x)
                  - vx x * (vx x * z0 + vy x * z1 + vz x * z2)); [ring |].
    rewrite Hxx, Hxz. ring.
  - transitivity (z1 * (vx x * vx x + vy x * vy x + vz x * vz x)
                  - vy x * (vx x * z0 + vy x * z1 + vz x * z2)); [ring |].
    rewrite Hxx, Hxz. ring.
  - transitivity (z2 * (vx x * vx x + vy x * vy x + vz x * vz x)
                  - vz x * (vx x * z0 + vy x * z1 + vz x * z2)); [ring |].
    rewrite Hxx, Hxz. ring.
Qed.

(** The determinant of a matrix with bottom row (0, 0, 0, 1) is the
    triple product of its first three columns. *)
Lemma invertDeterminant_affine (x0 x1 x2 y0 y1 y2 z0 z1 z2 t0 t1 t2 : R) :
  invertDeterminant (mkM4 x0 x1 x2 0 y0 y1 y2 0 z0 z1 z2 0 t0 t1 t2 1)
  = v3_dot (v3_cross (mkV3 x0 x1 x2) (mkV3 y0 y1 y2)) (mkV3 z0 z1 z2).
Proof.
  unfold invertDeterminant, v3_dot, v3_cross;
  cbn [te0 te1 te2 te3 te4 te5 te6 te7 te8 te9 te10 te11 te12 te13 te14 te15 vx vy vz].
  ring.
Qed.

(** The light orientation (lines 210-214) for a unit sun direction not
    parallel to [up]. *)
Lemma lightOrientation_form (sunDirection : Vector3) :
  v3_lengthSq sunDirection = 1 -> v3_lengthSq (v3_cross DEFAULT_UP sunDirection) <> 0 ->
  lightOrientationMatrix sunDirection
  = (let x := v3_normalize (v3_cross DEFAULT_UP sunDirection) in
     let y := v3_cross sunDirection x in
     mkM4 (vx x) (vy x) (vz x) 0
          (vx y) (vy y) (vz y) 0
          (vx sunDirection) (vy sunDirection) (vz sunDirection) 0
          0 0 0 1).
Proof.
  intros Hs Hx. unfold lightOrientationMatrix.
  rewrite (lookAt_dir m4_identity v3_zero (v3_multiplyScalar sunDirection (-1)) DEFAULT_UP
             sunDirection 1); [reflexivity | | exact Hs | lra | exact Hx].
  unfold v3_sub, v3_zero, v3_multiplyScalar; cbn [vx vy vz]. f_equal; ring.
Qed.

(** The light orientation is a rotation taking +z to the sun direction
    and keeping the origin; [cameraToLightMatrix] undoes it, so the light
    orientation times [cameraToLightMatrix] is the camera's world
    matrix (lines 210-218). *)
Theorem lightOrientation_rotation (camera : PerspectiveCamera) (sunDirection : Vector3)
    (Hs : v3_lengthSq sunDirection = 1)
    (Hx : v3_lengthSq (v3_cross DEFAULT_UP sunDirection) <> 0) :
  let m := lightOrientationMatrix sunDirection in
  let X := mkV3 (te0 m) (te1 m) (te2 m) in
  let Y := mkV3 (te4 m) (te5 m) (te6 m) in
  let Z := mkV3 (te8 m) (te9 m) (te10 m) in
  v3_dot X X = 1 /\ v3_dot Y Y = 1 /\ v3_dot Z Z = 1 /\
  v3_dot X Y = 0 /\ v3_dot X Z = 0 /\ v3_dot Y Z = 0 /\ v3_cross X Y = Z /\
  applyMatrix4 (mkV3 0 0 1) m = sunDirection /\
  applyMatrix4 v3_zero m = v3_zero /\
  multiplyMatrices m (cameraToLightMatrix camera sunDirection) = matrixWorld camera.
Proof.
  intros m X Y Z.
  assert (Hm := lightOrientation_form sunDirection Hs Hx). cbv zeta in Hm.
  destruct (lookAt_frame DEFAULT_UP sunDirection Hs Hx)
    as (Hxx & Hyy & Hxy & Hxz & Hyz & Hc). cbv zeta in Hxx, Hyy, Hxy, Hxz, Hyz, Hc.
  set (x := v3_normalize (v3_cross DEFAULT_UP sunDirection)) in *.
  assert (Hw : multiplyMatrices m (cameraToLightMatrix camera sunDirection) = matrixWorld camera).
  { unfold cameraToLightMatrix. fold m. rewrite <- multiplyMatrices_assoc.
    rewrite invert_right, multiplyMatrices_identity_l; [reflexivity |].
    unfold m. rewrite Hm.
    rewrite invertDeterminant_affine, !v3_eta, Hc. unfold v3_lengthSq in Hs. rewrite Hs. lra. }
  unfold X, Y, Z, m. rewrite Hm.
  cbn [te0 te1 te2 te3 te4 te5 te6 te7 te8 te9 te10 te11 te12 te13 te14 te15].
  rewrite !v3_eta.
  split; [exact Hxx |]. split; [exact Hyy |]. split; [exact Hs |].
  split; [exact Hxy |]. split; [exact Hxz |]. split; [exact Hyz |].
  split; [exact Hc |].
  split.
  { unfold applyMatrix4;
    cbn [te0 te1 te2 te3 te4 te5 te6 te7 te8 te9 te10 te11 te12 te13 te14 te15 vx vy vz].
    transitivity (mkV3 (vx sunDirection) (vy sunDirection) (vz sunDirection));
    [f_equal; field | apply v3_eta]. }
  split.
  { unfold applyMatrix4, v3_zero;
    cbn [te0 te1 te2 te3 te4 te5 te6 te7 te8 te9 te10 te11 te12 te13 te14 te15 vx vy vz].
    f_equal; field. }
  rewrite <- Hm. exact Hw.
Qed.

Lemma lightOrientation_rotation_witness :
  v3_lengthSq exampleSun = 1 /\ v3_lengthSq (v3_cross DEFAULT_UP exampleSun) <> 0 /\
  applyMatrix4 (mkV3 0 0 1) (lightOrientationMatrix exampleSun) = exampleSun.
Proof.
  split; [exact exampleSun_unit |]. split; [exact exampleSun_not_up |].
  exact (proj1 (proj2 (proj2 (proj2 (proj2 (proj2 (proj2 (proj2
    (lightOrientation_rotation (exampleCamera 1 10) exampleSun exampleSun_unit
       exampleSun_not_up))))))))).
Defined.

(** After [update], with a unit sun direction not parallel to [up] and a
    positive light distance, every cascade's inverse view matrix is a
    rigid placement: its first three columns are orthonormal and right
    handed, its bottom row is the one the cascade held before (lookAt and
    setPosition keep it), and when that row is (0, 0, 0, 1), as for the
    cascades the [cascadeCount] setter creates, the view matrix is its
    two-sided inverse (lines 256-263, 287). *)
Theorem update_inverseView_rigid (st : CascadedShadows) (camera : PerspectiveCamera)
    (sunDirection : Vector3) (ellipsoid : Ellipsoid)
    (Hs : v3_lengthSq sunDirection = 1)
    (Hx : v3_lengthSq (v3_cross DEFAULT_UP sunDirection) <> 0)
    (Hd : 0 < lightDistance camera sunDirection ellipsoid) :
  exists st', update st camera sunDirection ellipsoid = Returned st' /\
  forall i c, nth_error (cascades st') i = Some c ->
  exists c0, nth_error (cascades st) i = Some c0 /\
    let m := inverseViewMatrix c in
    let m0 := inverseViewMatrix c0 in
    let X := mkV3 (te0 m) (te1 m) (te2 m) in
    let Y := mkV3 (te4 m) (te5 m) (te6 m) in
    let Z := mkV3 (te8 m) (te9 m) (te10 m) in
    v3_dot X X = 1 /\ v3_dot Y Y = 1 /\ v3_dot Z Z = 1 /\
    v3_dot X Y = 0 /\ v3_dot X Z = 0 /\ v3_dot Y Z = 0 /\ v3_cross X Y = Z /\
    te3 m = te3 m0 /\ te7 m = te7 m0 /\ te11 m = te11 m0 /\ te15 m = te15 m0 /\
    (te3 m0 = 0 -> te7 m0 = 0 -> te11 m0 = 0 -> te15 m0 = 1 ->
     multiplyMatrices (viewMatrix c) m = m4_identity /\
     multiplyMatrices m (viewMatrix c) = m4_identity).
Proof.
  destruct (update_returns st camera sunDirection ellipsoid) as [st' Hu].
  exists st'. split; [exact Hu |].
  intros i c Hc.
  destruct (update_cascade_of st camera sunDirection ellipsoid st' i c Hu Hc)
    as (c0 & frustum & Hc0 & _ & _ & Hv & Hw).
  exists c0. split; [exact Hc0 |].
  cbv zeta in Hv |- *. unfold cascadeInverseView in Hv.
  rewrite lookAt_light in Hv by assumption. cbv zeta in Hv.
  assert (Hz : v3_lengthSq (v3_multiplyScalar sunDirection (-1)) = 1)
    by (rewrite lengthSq_scaled, Hs; ring).
  assert (Hzx : v3_lengthSq (v3_cross DEFAULT_UP (v3_multiplyScalar sunDirection (-1))) <> 0)
    by (rewrite lengthSq_cross_neg; exact Hx).
  destruct (lookAt_frame DEFAULT_UP _ Hz Hzx) as (Hxx & Hyy & Hxy & Hxz & Hyz & Hcr).
  cbv zeta in Hxx, Hyy, Hxy, Hxz, Hyz, Hcr.
  set (z := v3_multiplyScalar sunDirection (-1)) in *.
  set (x := v3_normalize (v3_cross DEFAULT_UP z)) in *.
  rewrite Hw, Hv. unfold setPosition.
  cbn [te0 te1 te2 te3 te4 te5 te6 te7 te8 te9 te10 te11 te12 te13 te14 te15].
  rewrite !v3_eta.
  split; [exact Hxx |]. split; [exact Hyy |]. split; [exact Hz |].
  split; [exact Hxy |]. split; [exact Hxz |]. split; [exact Hyz |].
  split; [exact Hcr |].
  split; [reflexivity |]. split; [reflexivity |]. split; [reflexivity |].
  split; [reflexivity |].
  intros H3 H7 H11 H15. rewrite H3, H7, H11, H15.
  unfold v3_lengthSq in Hz.
  split; [apply invert_left | apply invert_right];
    rewrite invertDeterminant_affine, !v3_eta, Hcr, Hz; lra.
Qed.

Lemma update_inverseView_rigid_witness :
  exists st', update exampleState (exampleCamera 1 10) exampleSun WGS84 = Returned st' /\
  forall c, nth_error (cascades st') 0 = Some c ->
    multiplyMatrices (viewMatrix c) (inverseViewMatrix c) = m4_identity.
Proof.
  assert (Hd : 0 < lightDistance (exampleCamera 1 10) exampleSun WGS84)
    by (rewrite lightDistance_origin; lra).
  destruct (update_inverseView_rigid exampleState (exampleCamera 1 10) exampleSun WGS84
              exampleSun_unit exampleSun_not_up Hd) as [st' [Hu H]].
  exists st'. split; [exact Hu |].
  intros c Hc. destruct (H 0%nat c Hc) as (c0 & Hc0 & Hr).
  cbn in Hc0. injection Hc0 as <-.
  destruct Hr as (_ & _ & _ & _ & _ & _ & _ & _ & _ & _ & _ & Hinv).
  exact (proj1 (Hinv eq_refl eq_refl eq_refl eq_refl)).
Defined.

(** ** The orthographic projection of a cascade *)

(** [extractOrthographicTuple] inverts [makeOrthographic]: it gives back
    left, right, top and bottom whenever [right <> left] and
    [top <> bottom], whatever near and far (lines 51-69). *)
Theorem extractOrthographicTuple_roundtrip (left right top bottom near far : R)
    (Hw : right - left <> 0) (Hh : top - bottom <> 0) :
  extractOrthographicTuple (makeOrthographic left right top bottom near far)
  = (left, right, top, bottom).
Proof.
  unfold extractOrthographicTuple, makeOrthographic. cbn [te0 te5 te12 te13].
  f_equal; [f_equal; [f_equal |] |]; field; auto.
Qed.

Lemma extractOrthographicTuple_roundtrip_witness :
  extractOrthographicTuple (makeOrthographic 0 2 3 1 0.5 100) = (0, 2, 3, 1).
Proof. apply extractOrthographicTuple_roundtrip; lra. Defined.

(** The projection of a cascade (lines 193-201) maps a light-space point
    [p] to [(x / r, y / r, -(z + r) / (r + margin))], [r] the radius; so
    for a positive radius and [r + margin > 0] it takes the box
    [[-r, r] x [-r, r] x [-(2r + margin), margin]] exactly onto the clip
    cube [[-1, 1]^3]. *)
Theorem cascadeProjection_clip (st : CascadedShadows) (camera : PerspectiveCamera)
    (frustum : FrustumCorners) (p : Vector3)
    (Hr : 0 < getFrustumRadius st camera frustum)
    (Hm : 0 < getFrustumRadius st camera frustum + margin st) :
  let r := getFrustumRadius st camera frustum in
  let q := applyMatrix4 p (cascadeProjection st camera frustum) in
  q = mkV3 (vx p / r) (vy p / r) (- (vz p + r) / (r + margin st)) /\
  (-1 <= vx q <= 1 <-> - r <= vx p <= r) /\
  (-1 <= vy q <= 1 <-> - r <= vy p <= r) /\
  (-1 <= vz q <= 1 <-> - (2 * r + margin st) <= vz p <= margin st).
Proof.
  intros r q. fold r in Hr, Hm.
  assert (Hq : q = mkV3 (vx p / r) (vy p / r) (- (vz p + r) / (r + margin st))).
  { unfold q, cascadeProjection, makeOrthographic, applyMatrix4. cbv zeta. fold r.
    cbn [te0 te1 te2 te3 te4 te5 te6 te7 te8 te9 te10 te11 te12 te13 te14 te15].
    f_equal; field; lra. }
  split; [exact Hq |]. rewrite Hq. cbn [vx vy vz]. clearbody r.
  assert (Bxy : forall x, -1 <= x / r <= 1 <-> - r <= x <= r).
  { intros x. assert (Ex : x = x / r * r) by (field; lra).
    set (u := x / r) in *. rewrite Ex. split; intros [H1 H2]; split; nra. }
  split; [apply Bxy |]. split; [apply Bxy |].
  set (m := margin st) in *.
  assert (Ez : vz p = - (- (vz p + r) / (r + m)) * (r + m) - r) by (field; lra).
  set (u := - (vz p + r) / (r + m)) in *. rewrite Ez.
  split; intros [H1 H2]; split; nra.
Qed.

Lemma cascadeProjection_clip_witness :
  0 < getFrustumRadius (set_fade exampleState false) (exampleCamera 1 10) exampleFrustum /\
  0 < getFrustumRadius (set_fade exampleState false) (exampleCamera 1 10) exampleFrustum
      + margin (set_fade exampleState false) /\
  applyMatrix4 (mkV3 0.5 0 (-1))
    (cascadeProjection (set_fade exampleState false) (exampleCamera 1 10) exampleFrustum)
  = mkV3 (0.5 / 1) (0 / 1) (- (-1 + 1) / (1 + 0)).
Proof.
  assert (Hr : 0 < getFrustumRadius (set_fade exampleState false) (exampleCamera 1 10)
                     exampleFrustum) by (rewrite exampleFrustum_radius; lra).
  assert (Hm : 0 < getFrustumRadius (set_fade exampleState false) (exampleCamera 1 10)
                     exampleFrustum + margin (set_fade exampleState false))
    by (rewrite exampleFrustum_radius; cbn [margin set_fade exampleState]; lra).
  split; [exact Hr |]. split; [exact Hm |].
  pose proof (proj1 (cascadeProjection_clip (set_fade exampleState false) (exampleCamera 1 10)
                       exampleFrustum (mkV3 0.5 0 (-1)) Hr Hm)) as H.
  cbv zeta in H. rewrite exampleFrustum_radius in H. exact H.
Defined.

(** The radius fitted to a sub-frustum (lines 163-185) covers half of
    both diagonals it measures and is not negative, and fading only
    enlarges it, provided the camera's near plane lies before the far
    distance used ([far - near > 0]: at [far = near] the code divides by
    zero and the radius is [NaN] when fade is on). *)
Theorem getFrustumRadius_bounds (st : CascadedShadows) (camera : PerspectiveCamera)
    (frustum : FrustumCorners)
    (Hnf : cam_near camera < Rmin (cs_far st) (cam_far camera)) :
  let f0 := nth 0 (ffar frustum) v3_zero in
  let r := getFrustumRadius st camera frustum in
  v3_distanceTo f0 (nth 2 (ffar frustum) v3_zero) / 2 <= r /\
  v3_distanceTo f0 (nth 2 (fnear frustum) v3_zero) / 2 <= r /\
  0 <= r /\
  getFrustumRadius (set_fade st false) camera frustum <= r.
Proof.
  intros f0 r. unfold r, getFrustumRadius. fold f0. cbn [fade set_fade].
  set (d1 := v3_distanceTo f0 (nth 2 (ffar frustum) v3_zero)).
  set (d2 := v3_distanceTo f0 (nth 2 (fnear frustum) v3_zero)).
  assert (P1 : 0 <= d1) by apply sqrt_pos.
  pose proof (Rmax_l d1 d2) as M1. pose proof (Rmax_r d1 d2) as M2.
  set (dl := Rmax d1 d2) in *.
  destruct (fade st).
  - set (far := Rmin (cs_far st) (cam_far camera)) in *.
    set (t := vz f0 / (far - cam_near camera)).
    assert (T : 0 <= 0.25 * t ^ 2 * (far - cam_near camera)).
    { apply Rmult_le_pos; [| lra]. apply Rmult_le_pos; [lra |]. apply pow2_ge_0. }
    repeat split; lra.
  - repeat split; lra.
Qed.

Lemma getFrustumRadius_bounds_witness :
  cam_near (exampleCamera 1 10) < Rmin (cs_far exampleState) (cam_far (exampleCamera 1 10)) /\
  0 <= getFrustumRadius exampleState (exampleCamera 1 10) exampleFrustum.
Proof.
  assert (H : cam_near (exampleCamera 1 10)
              < Rmin (cs_far exampleState) (cam_far (exampleCamera 1 10))).
  { cbn [cam_near cam_far exampleCamera cs_far exampleState].
    unfold Rmin. destruct (Rle_dec 100 10); lra. }
  split; [exact H |].
  exact (proj1 (proj2 (proj2 (getFrustumRadius_bounds exampleState (exampleCamera 1 10)
                                exampleFrustum H)))).
Defined.

(** ** Snapping to the texel grid *)

Lemma js_round_IZR (k : Z) : js_round (IZR k) = IZR k.
Proof. apply js_round_example. lra. Qed.

Lemma js_round_shift (x : R) (k : Z) : js_round (x + IZR k) = js_round x + IZR k.
Proof.
  unfold js_round. rewrite <- plus_IZR. f_equal.
  destruct (base_Int_part (x + 1 / 2)) as [H1 H2].
  symmetry. apply Int_part_spec. rewrite plus_IZR. lra.
Qed.

Lemma js_round_idem (x : R) : js_round (js_round x) = js_round x.
Proof. unfold js_round at 2. apply js_round_IZR. Qed.

(** [snapToTexel] (lines 247-254) with a positive texel size: snapping
    an already snapped point changes nothing, and moving the point by
    whole texels in x and y (and anything in z) moves the snapped point by
    the same amount. *)
Theorem snapToTexel_grid (projection : Matrix4) (size : R) (center : Vector3)
    (left right top bottom : R) (kx ky : Z) (dz : R)
    (He : extractOrthographicTuple projection = (left, right, top, bottom))
    (Hw : 0 < (right - left) / size) (Hh : 0 < (top - bottom) / size) :
  let texelWidth := (right - left) / size in
  let texelHeight := (top - bottom) / size in
  let shift := mkV3 (IZR kx * texelWidth) (IZR ky * texelHeight) dz in
  snapToTexel projection size (snapToTexel projection size center)
  = snapToTexel projection size center /\
  snapToTexel projection size (v3_add center shift)
  = v3_add (snapToTexel projection size center) shift.
Proof.
  intros tw th shift. fold tw in Hw. fold th in Hh.
  unfold snapToTexel. rewrite He. fold tw th.
  cbn [vx vy vz v3_add shift].
  split.
  - replace (js_round (vx center / tw) * tw / tw) with (js_round (vx center / tw))
      by (field; lra).
    replace (js_round (vy center / th) * th / th) with (js_round (vy center / th))
      by (field; lra).
    rewrite !js_round_idem. reflexivity.
  - unfold shift, v3_add; cbn [vx vy vz].
    replace ((vx center + IZR kx * tw) / tw) with (vx center / tw + IZR kx) by (field; lra).
    replace ((vy center + IZR ky * th) / th) with (vy center / th + IZR ky) by (field; lra).
    rewrite !js_round_shift. f_equal; ring.
Qed.

Lemma snapToTexel_grid_witness :
  let p := makeOrthographic (-512) 512 512 (-512) 0 1024 in
  snapToTexel p 1024 (v3_add (mkV3 3.4 7.6 5) (mkV3 (IZR 2 * ((512 - -512) / 1024))
                                                 (IZR (-1) * ((512 - -512) / 1024)) 1))
  = v3_add (snapToTexel p 1024 (mkV3 3.4 7.6 5))
           (mkV3 (IZR 2 * ((512 - -512) / 1024)) (IZR (-1) * ((512 - -512) / 1024)) 1).
Proof.
  intros p.
  assert (He : extractOrthographicTuple p = (-512, 512, 512, -512))
    by (apply extract_symmetric; lra).
  assert (Hw : 0 < (512 - -512) / 1024) by lra.
  exact (proj2 (snapToTexel_grid p 1024 (mkV3 3.4 7.6 5) (-512) 512 512 (-512) 2 (-1) 1
                  He Hw Hw)).
Defined.

(** ** The light-space bounding box *)

Lemma expandByPoint_new (b : Box3) (p : Vector3) : containsPoint (expandByPoint b p) p.
Proof.
  destruct b as [[mn mx] |]; cbn [expandByPoint containsPoint]; unfold v3_min, v3_max;
    cbn [vx vy vz].
  - repeat split; auto using Rmin_r, Rmax_r.
  - repeat split; lra.
Qed.

Lemma expandByPoint_keeps (b : Box3) (p q : Vector3) :
  containsPoint b q -> containsPoint (expandByPoint b p) q.
Proof.
  destruct b as [[mn mx] |]; cbn [expandByPoint containsPoint]; [| tauto].
  unfold v3_min, v3_max; cbn [vx vy vz].
  intros ([H1 H2] & [H3 H4] & [H5 H6]).
  pose proof (Rmin_l (vx mn) (vx p)). pose proof (Rmax_l (vx mx) (vx p)).
  pose proof (Rmin_l (vy mn) (vy p)). pose proof (Rmax_l (vy mx) (vy p)).
  pose proof (Rmin_l (vz mn) (vz p)). pose proof (Rmax_l (vz mx) (vz p)).
  repeat split; lra.
Qed.

(** The light-space box (lines 236-243) contains all eight corners of the
    sub-frustum in light space. *)
Theorem lightSpaceBox_contains (frustum : FrustumCorners) (cameraToLight : Matrix4) (j : nat)
    (Hj : (j < 4)%nat) :
  let f := frustum_applyMatrix4 frustum cameraToLight in
  containsPoint (lightSpaceBox frustum cameraToLight) (nth j (fnear f) v3_zero) /\
  containsPoint (lightSpaceBox frustum cameraToLight) (nth j (ffar f) v3_zero).
Proof.
  intros f. unfold lightSpaceBox. fold f. cbn [seq fold_left].
  destruct j as [| [| [| [| j]]]]; [| | | | lia];
  split; repeat (first [apply expandByPoint_new | apply expandByPoint_keeps]).
Qed.

Lemma lightSpaceBox_contains_witness :
  containsPoint (lightSpaceBox exampleFrustum m4_identity)
    (nth 2 (ffar (frustum_applyMatrix4 exampleFrustum m4_identity)) v3_zero).
Proof.
  exact (proj2 (lightSpaceBox_contains exampleFrustum m4_identity 2 ltac:(lia))).
Defined.

(** ** Resizing and constructing *)

(** The [cascadeCount] setter (lines 132-147) keeps the first
    [min(value, count)] cascades as they are and appends fresh ones up to
    [value]; it touches nothing else, and the count afterwards is
    [value]. *)
Theorem set_cascadeCount_resize (st : CascadedShadows) (value : nat) :
  set_cascadeCount st value
  = with_cascades st (firstn value (cascades st)
                      ++ repeat newCascade (value - cascadeCount st)) /\
  cascadeCount (set_cascadeCount st value) = value.
Proof. split; [apply set_cascadeCount_closed | apply set_cascadeCount_count]. Qed.

(** [new CascadedShadows(options)] (lines 114-126): [cascadeCount] fresh
    cascades, each option or its default (4 cascades of size 1024, far
    1e4, practical split, lambda 0.5, margin 0, fade on), and no frusta
    or splits yet. *)
Theorem newCascadedShadows_spec (options : CascadedShadowsOptions) :
  newCascadedShadows options
  = mkCS (repeat newCascade (option_or (opt_cascadeCount options) 4%nat))
         (option_or (opt_cascadeSize options) 1024)
         (option_or (opt_far options) 1e4)
         (option_or (opt_mode options) practical)
         (option_or (opt_lambda options) 0.5)
         (option_or (opt_margin options) 0)
         (option_or (opt_fade options) true) [] [].
Proof.
  unfold newCascadedShadows. cbv zeta.
  rewrite set_cascadeCount_closed. cbn [cascades uninitialized cascadeCount length].
  rewrite firstn_nil, Nat.sub_0_r. reflexivity.
Qed.

(** ** The material's define setters *)

(** The [depthPacking] and [useShapeDetail] setters of the material
    (lines 507-516, 529-542): the getter afterwards returns the value set; the
    setter changes nothing, so recompiles nothing, when the getter already
    returns that value, and otherwise sets [needsUpdate] once; a second
    call with the same value is a no-op; neither setter touches the other
    define. *)
Theorem material_define_setters (m : MaterialDefines) (v : R) (b : bool) :
  get_depthPacking (set_depthPacking m v) = Some v /\
  (get_depthPacking m = Some v -> set_depthPacking m v = m) /\
  (get_depthPacking m <> Some v ->
   definesVersion (set_depthPacking m v) = S (definesVersion m)) /\
  set_depthPacking (set_depthPacking m v) v = set_depthPacking m v /\
  USE_SHAPE_DETAIL (set_depthPacking m v) = USE_SHAPE_DETAIL m /\
  get_useShapeDetail (set_useShapeDetail m b) = b /\
  (get_useShapeDetail m = b -> set_useShapeDetail m b = m) /\
  (get_useShapeDetail m <> b ->
   definesVersion (set_useShapeDetail m b) = S (definesVersion m)) /\
  set_useShapeDetail (set_useShapeDetail m b) b = set_useShapeDetail m b /\
  DEPTH_PACKING (set_useShapeDetail m b) = DEPTH_PACKING m.
Proof.
  assert (Same : forall m', get_depthPacking m' = Some v -> set_depthPacking m' v = m').
  { intros m' H. unfold set_depthPacking. rewrite H.
    destruct (Req_dec_T v v) as [_ | E]; [reflexivity | contradiction]. }
  assert (Get : get_depthPacking (set_depthPacking m v) = Some v).
  { unfold set_depthPacking. destruct (get_depthPacking m) as [w |] eqn:E.
    - destruct (Req_dec_T v w) as [-> | _]; [exact E | reflexivity].
    - reflexivity. }
  assert (SameB : forall m', get_useShapeDetail m' = b -> set_useShapeDetail m' b = m').
  { intros m' H. unfold set_useShapeDetail. rewrite H, Bool.eqb_reflx. reflexivity. }
  assert (GetB : get_useShapeDetail (set_useShapeDetail m b) = b).
  { unfold set_useShapeDetail. destruct (Bool.eqb b (get_useShapeDetail m)) eqn:E.
    - apply Bool.eqb_prop in E. symmetry. exact E.
    - reflexivity. }
  split; [exact Get |].
  split; [exact (Same m) |].
  split.
  { intros H. unfold set_depthPacking. destruct (get_depthPacking m) as [w |] eqn:E.
    - destruct (Req_dec_T v w) as [-> | _]; [contradiction | reflexivity].
    - reflexivity. }
  split; [exact (Same _ Get) |].
  split.
  { unfold set_depthPacking. destruct (get_depthPacking m) as [w |].
    - destruct (Req_dec_T v w); reflexivity.
    - reflexivity. }
  split; [exact GetB |].
  split; [exact (SameB m) |].
  split.
  { intros H. unfold set_useShapeDetail. destruct (Bool.eqb b (get_useShapeDetail m)) eqn:E.
    - apply Bool.eqb_prop in E. congruence.
    - reflexivity. }
  split; [exact (SameB _ GetB) |].
  unfold set_useShapeDetail. destruct (Bool.eqb b (get_useShapeDetail m)); reflexivity.
Qed.

Lemma material_define_setters_witness :
  set_depthPacking (mkDefines (Some 0) true 0) 0 = mkDefines (Some 0) true 0 /\
  definesVersion (set_useShapeDetail (mkDefines (Some 0) true 0) false) = 1%nat.
Proof.
  destruct (material_define_setters (mkDefines (Some 0) true 0) 0 false)
    as (_ & Hs & _ & _ & _ & _ & _ & Hb & _).
  split; [apply Hs; reflexivity |].
  apply Hb. cbn. discriminate.
Defined.
